(** * Levelized cost of energy: [calculate_lcoe] of [lcoe_script.py]

    A shallow embedding of the function [calculate_lcoe] and the proofs of
    the properties its specification states.

    Numbers.  The script computes on Python floats.  The embedding computes
    on exact rationals ([Q], compared with [==]): the specification speaks
    of real numbers throughout, and rounding is outside this development.
    The integer arguments [T] and [Nd] are Python integers, hence [Z].

    Failure.  The only way the function can fail is a division whose divisor
    is zero.  Python's [/] on floats raises [ZeroDivisionError] there; on
    numpy scalars the same division signals [divide by zero] or [invalid]
    and yields a non-finite value.  In both cases the call does not deliver
    a finite number, and the embedding records this as [Raise], together
    with the statement of the source in which the division stands. *)

From Stdlib Require Import ZArith QArith Qpower Qfield Lqa Lia List Bool
  Setoid Morphisms.
Import ListNotations.

Local Open Scope Q_scope.

(** ** Results and exceptions *)

(** The statements of [calculate_lcoe] that divide. *)
Inductive site : Type :=
| At_Dn        (* line 26: Dn = econ.capex/Nd *)
| At_opex      (* line 33: lcoe_num += ... /(1+econ.d/100.)**year *)
| At_shield    (* line 35: lcoe_num -= Dn*econ.Tx/100./(1+econ.d/100.)**year *)
| At_yield     (* line 37: lcoe_den += ... /(1+econ.d/100.)**year *)
| At_return.   (* line 39: return lcoe_num/lcoe_den *)

Inductive exn : Type :=
| ZeroDivisionError (s : site).

Inductive result (A : Type) : Type :=
| Ok (a : A)
| Raise (e : exn).

Arguments Ok {A} a.
Arguments Raise {A} e.

Definition ret {A : Type} (a : A) : result A := Ok a.

Definition bind {A B : Type} (m : result A) (k : A -> result B) : result B :=
  match m with
  | Ok a => k a
  | Raise e => Raise e
  end.

Notation "x <- m ;; k" := (bind m (fun x => k))
  (at level 61, m at next level, right associativity).

(** [for x in l: st = f st x], stopping at the first exception. *)
Fixpoint for_each {A S : Type} (f : S -> A -> result S) (l : list A) (st : S)
  : result S :=
  match l with
  | [] => ret st
  | x :: l' => st' <- f st x ;; for_each f l' st'
  end.

(** ** The operations of the script *)

(** [a / b]: fails when the divisor is zero. *)
Definition truediv (s : site) (a b : Q) : result Q :=
  if Qeq_bool b 0 then Raise (ZeroDivisionError s) else Ok (a / b).

(** [x ** year].  The exponent is always a loop index, hence at least 1, and
    no power of the script can fail. *)
Definition pow (x : Q) (year : Z) : Q := Qpower x year.

(** [np.arange(lo, hi)]: the integers [lo], [lo+1], ..., [hi-1]; empty when
    [hi <= lo].  numpy stores them as 64-bit integers; an array long enough
    to leave that range cannot be allocated, so they are plain integers
    here. *)
Definition arange (lo hi : Z) : list Z :=
  map (fun i => (lo + Z.of_nat i)%Z) (seq 0 (Z.to_nat (hi - lo))).

(** ** The data *)

(** The argument [econ]: its percentages are given in percent. *)
Record Econ : Type := mkEcon {
  capex : Q;   (* capital expenditure *)
  opex : Q;    (* yearly O&M costs *)
  Tx : Q;      (* corporate tax rate, % *)
  d : Q;       (* discount rate, % *)
  rom : Q      (* annual increase of the O&M costs, % *)
}.

(** ** calculate_lcoe *)

(** The body of the loop over [year], on the pair [(lcoe_num, lcoe_den)]. *)
Definition lcoe_year (Ef : Q) (econ : Econ) (deg : Q) (Nd : Z) (Dn : Q)
  (st : Q * Q) (year : Z) : result (Q * Q) :=
  let '(lcoe_num, lcoe_den) := st in
  o <- truediv At_opex
         (opex econ * (1 - Tx econ / 100) * pow (1 + rom econ / 100) year)
         (pow (1 + d econ / 100) year) ;;
  let lcoe_num := lcoe_num + o in
  lcoe_num <- (if (year <=? Nd)%Z
               then s <- truediv At_shield (Dn * Tx econ / 100)
                           (pow (1 + d econ / 100) year) ;;
                    ret (lcoe_num - s)
               else ret lcoe_num) ;;
  y <- truediv At_yield (Ef * pow (1 - deg) year)
         (pow (1 + d econ / 100) year) ;;
  ret (lcoe_num, lcoe_den + y).

(** The loop, from the initial values of numerator and denominator. *)
Definition lcoe_loop (Ef : Q) (econ : Econ) (T : Z) (deg : Q) (Nd : Z)
  (Dn : Q) : result (Q * Q) :=
  for_each (lcoe_year Ef econ deg Nd Dn) (arange 1 (T + 1)) (capex econ, 0).

Definition calculate_lcoe (Ef : Q) (econ : Econ) (T : Z) (deg : Q) (Nd : Z)
  : result Q :=
  Dn <- truediv At_Dn (capex econ) (inject_Z Nd) ;;
  st <- lcoe_loop Ef econ T deg Nd Dn ;;
  truediv At_return (fst st) (snd st).

(** ** The formula of the specification *)

(** [Qsum_from lo n f] is [f lo + f (lo+1) + ... + f (lo+n-1)]. *)
Fixpoint Qsum_from (lo : Z) (n : nat) (f : Z -> Q) : Q :=
  match n with
  | O => 0
  | S k => f lo + Qsum_from (lo + 1) k f
  end.

(** The sum of [f year] for [year] in the closed interval [lo..hi], both
    ends included; zero when [hi < lo]. *)
Definition Qsum (lo hi : Z) (f : Z -> Q) : Q :=
  Qsum_from lo (Z.to_nat (hi - lo + 1)) f.

(** The discount factor of a year: [(1 + discountRate/100) ^ year]. *)
Definition discount (econ : Econ) (year : Z) : Q :=
  (1 + d econ / 100) ^ year.

(** The after-tax, escalated and discounted O&M cost of a year. *)
Definition opex_term (econ : Econ) (year : Z) : Q :=
  opex econ * (1 - Tx econ / 100) * (1 + rom econ / 100) ^ year
  / discount econ year.

(** The discounted tax shield of a year of straight-line depreciation. *)
Definition shield_term (econ : Econ) (Nd : Z) (year : Z) : Q :=
  (capex econ / inject_Z Nd) * (Tx econ / 100) / discount econ year.

(** The discounted, degraded yield of a year. *)
Definition yield_term (Ef : Q) (econ : Econ) (deg : Q) (year : Z) : Q :=
  Ef * (1 - deg) ^ year / discount econ year.

Definition lcoe_numerator (econ : Econ) (T Nd : Z) : Q :=
  capex econ + Qsum 1 T (opex_term econ)
  - Qsum 1 (Z.min T Nd) (shield_term econ Nd).

Definition lcoe_denominator (Ef : Q) (econ : Econ) (T : Z) (deg : Q) : Q :=
  Qsum 1 T (yield_term Ef econ deg).

(** The tax shield the loop subtracts in a year, from the depreciation
    amount [Dn] it was given. *)
Definition shield_of (econ : Econ) (Dn : Q) (year : Z) : Q :=
  Dn * Tx econ / 100 / discount econ year.

(** ** The loop without the test on the year *)

(** The body of the loop when the tax shield is subtracted in every year:
    [lcoe_year] without [if year<=Nd]. *)
Definition lcoe_year_shielded (Ef : Q) (econ : Econ) (deg : Q) (Dn : Q)
  (st : Q * Q) (year : Z) : result (Q * Q) :=
  let '(lcoe_num, lcoe_den) := st in
  o <- truediv At_opex
         (opex econ * (1 - Tx econ / 100) * pow (1 + rom econ / 100) year)
         (pow (1 + d econ / 100) year) ;;
  let lcoe_num := lcoe_num + o in
  s <- truediv At_shield (Dn * Tx econ / 100)
         (pow (1 + d econ / 100) year) ;;
  let lcoe_num := lcoe_num - s in
  y <- truediv At_yield (Ef * pow (1 - deg) year)
         (pow (1 + d econ / 100) year) ;;
  ret (lcoe_num, lcoe_den + y).

(** [calculate_lcoe] with the shield of [capex/Nd] in every year of the
    lifetime. *)
Definition lcoe_shield_every_year (Ef : Q) (econ : Econ) (T : Z) (deg : Q)
  (Nd : Z) : result Q :=
  Dn <- truediv At_Dn (capex econ) (inject_Z Nd) ;;
  st <- for_each (lcoe_year_shielded Ef econ deg Dn) (arange 1 (T + 1))
          (capex econ, 0) ;;
  truediv At_return (fst st) (snd st).

(** ** Varying the capital expenditure *)

(** [econ] with another [capex], everything else held fixed. *)
Definition with_capex (econ : Econ) (c : Q) : Econ :=
  mkEcon c (opex econ) (Tx econ) (d econ) (rom econ).

(** The sum of the discount weights [1 / (1+d/100)^year] over the years that
    carry a tax shield. *)
Definition shield_weight (econ : Econ) (T Nd : Z) : Q :=
  Qsum 1 (Z.min T Nd) (fun year => / discount econ year).

(** The factor of [capex] in the numerator: the outlay of year 0 less the
    tax shield it earns, [1 - (Tx/100) * shield_weight / Nd]. *)
Definition capex_weight (econ : Econ) (T Nd : Z) : Q :=
  1 - Tx econ / 100 * (shield_weight econ T Nd / inject_Z Nd).

(** ** The outcome of a call in closed form *)

(** What a call comes to, read off the three places where it can stop: the
    depreciation amount, the first division of the first year, and the last
    line. *)
Definition lcoe_outcome (Ef : Q) (econ : Econ) (T : Z) (deg : Q) (Nd : Z)
  : result Q :=
  if (Nd =? 0)%Z then Raise (ZeroDivisionError At_Dn)
  else if (1 <=? T)%Z && Qeq_bool (1 + d econ / 100) 0
       then Raise (ZeroDivisionError At_opex)
       else truediv At_return (lcoe_numerator econ T Nd)
              (lcoe_denominator Ef econ T deg).

(** [f] applied to the number a call returns; an exception stays. *)
Definition result_map (f : Q -> Q) (r : result Q) : result Q :=
  match r with
  | Ok v => Ok (f v)
  | Raise e => Raise e
  end.

(** ** Varying the other arguments *)

(** [econ] with [capex] and [opex] in another currency unit. *)
Definition scale_costs (k : Q) (econ : Econ) : Econ :=
  mkEcon (k * capex econ) (k * opex econ) (Tx econ) (d econ) (rom econ).

(** [econ] with another [opex], everything else held fixed. *)
Definition with_opex (econ : Econ) (o : Q) : Econ :=
  mkEcon (capex econ) o (Tx econ) (d econ) (rom econ).

(** [econ] with another [rom], everything else held fixed. *)
Definition with_rom (econ : Econ) (r : Q) : Econ :=
  mkEcon (capex econ) (opex econ) (Tx econ) (d econ) r.

(** The factor by which the discounted yield shrinks from a year to the
    next: [(1 - deg) / (1 + d/100)]. *)
Definition yield_ratio (econ : Econ) (deg : Q) : Q :=
  (1 - deg) / (1 + d econ / 100).

(** ** A scenario *)

(** The concrete scenario of the specification: capex 1000, opex 20, tax
    rate 25 %, discount rate 5 %, O&M escalation 2 %, and a yearly yield of
    1500; it is run below with the defaults of the signature, [T=25],
    [deg=0.01] and [Nd=20], or with other years where stated. *)
Definition scenario_econ : Econ := mkEcon 1000 20 25 5 2.
Definition scenario_Ef : Q := 1500.

(** ** Equality of results *)

(** Two results are the same when both are the same number, or both are the
    same exception raised by the same statement. *)
Definition result_eq (r1 r2 : result Q) : Prop :=
  match r1, r2 with
  | Ok a, Ok b => a == b
  | Raise e1, Raise e2 => e1 = e2
  | _, _ => False
  end.

Infix "=r=" := result_eq (at level 70, no associativity).

(** [r1] and [r2] are numbers, the first strictly below the second. *)
Definition result_lt (r1 r2 : result Q) : Prop :=
  match r1, r2 with
  | Ok a, Ok b => a < b
  | _, _ => False
  end.

(** [r] is a number, and [P] holds of it. *)
Definition returns (r : result Q) (P : Q -> Prop) : Prop :=
  match r with
  | Ok v => P v
  | Raise _ => False
  end.

(** ** Division *)

Lemma truediv_ok (s : site) (a b : Q) :
  ~ b == 0 -> truediv s a b = Ok (a / b).
Proof.
  intros Hb. unfold truediv.
  destruct (Qeq_bool b 0) eqn:E; [|reflexivity].
  apply Qeq_bool_eq in E. contradiction.
Qed.

Lemma truediv_zero (s : site) (a b : Q) :
  b == 0 -> truediv s a b = Raise (ZeroDivisionError s).
Proof.
  intros Hb. unfold truediv. now rewrite (Qeq_eq_bool _ _ Hb).
Qed.

Lemma truediv_compat (s : site) (a a' b b' : Q) :
  a == a' -> b == b' -> truediv s a b =r= truediv s a' b'.
Proof.
  intros Ha Hb. unfold truediv.
  destruct (Qeq_bool b 0) eqn:E.
  - apply Qeq_bool_eq in E. rewrite Hb in E.
    rewrite (Qeq_eq_bool _ _ E). reflexivity.
  - apply Qeq_bool_neq in E. rewrite Hb in E.
    destruct (Qeq_bool b' 0) eqn:E'.
    + apply Qeq_bool_eq in E'. contradiction.
    + simpl. now rewrite Ha, Hb.
Qed.

Lemma result_eq_refl (r : result Q) : r =r= r.
Proof. destruct r; simpl; reflexivity. Qed.

Lemma result_eq_sym (r1 r2 : result Q) : r1 =r= r2 -> r2 =r= r1.
Proof. destruct r1, r2; simpl; auto. intros H; now symmetry. Qed.

Lemma result_eq_trans (r1 r2 r3 : result Q) :
  r1 =r= r2 -> r2 =r= r3 -> r1 =r= r3.
Proof.
  destruct r1, r2, r3; simpl; try tauto.
  - intros H1 H2. now rewrite H1.
  - congruence.
Qed.

(** ** Powers and the discount factor *)

Lemma discount_nonzero (econ : Econ) (year : Z) :
  ~ 1 + d econ / 100 == 0 -> ~ discount econ year == 0.
Proof. intros H. unfold discount. now apply Qpower_not_0. Qed.

Lemma discount_zero (econ : Econ) (year : Z) :
  1 + d econ / 100 == 0 -> (1 <= year)%Z -> discount econ year == 0.
Proof.
  intros H Hy. unfold discount. rewrite H. apply Qpower_0. lia.
Qed.

Lemma discount_pos (econ : Econ) (year : Z) :
  0 < 1 + d econ / 100 -> 0 < discount econ year.
Proof. intros H. unfold discount. now apply Qpower_0_lt. Qed.

(** ** Sums over an interval of years *)

Lemma Qsum_from_ext (f g : Z -> Q) (n : nat) : forall lo,
  (forall y, (lo <= y < lo + Z.of_nat n)%Z -> f y == g y) ->
  Qsum_from lo n f == Qsum_from lo n g.
Proof.
  induction n as [|k IH]; intros lo H; simpl; [reflexivity|].
  rewrite (H lo) by lia. rewrite (IH (lo + 1)%Z); [reflexivity|].
  intros y Hy. apply H. lia.
Qed.

Lemma Qsum_from_zero (f : Z -> Q) (n : nat) : forall lo,
  (forall y, (lo <= y < lo + Z.of_nat n)%Z -> f y == 0) ->
  Qsum_from lo n f == 0.
Proof.
  induction n as [|k IH]; intros lo H; simpl; [reflexivity|].
  rewrite (H lo) by lia. rewrite (IH (lo + 1)%Z); [lra|].
  intros y Hy. apply H. lia.
Qed.

Lemma Qsum_from_scal (c : Q) (f : Z -> Q) (n : nat) : forall lo,
  Qsum_from lo n (fun y => c * f y) == c * Qsum_from lo n f.
Proof.
  induction n as [|k IH]; intros lo; simpl; [lra|].
  rewrite IH. ring.
Qed.

Lemma Qsum_from_pos (f : Z -> Q) (n : nat) : forall lo,
  (forall y, (lo <= y < lo + Z.of_nat n)%Z -> 0 < f y) ->
  (0 < n)%nat -> 0 < Qsum_from lo n f.
Proof.
  induction n as [|k IH]; intros lo H Hn; [lia|]. simpl.
  assert (H0 : 0 < f lo) by (apply H; lia).
  destruct k as [|k'].
  - simpl. lra.
  - assert (0 < Qsum_from (lo + 1) (S k') f).
    { apply IH; [|lia]. intros y Hy. apply H. lia. }
    lra.
Qed.

Lemma Qsum_from_le (f g : Z -> Q) (n : nat) : forall lo,
  (forall y, (lo <= y < lo + Z.of_nat n)%Z -> f y <= g y) ->
  Qsum_from lo n f <= Qsum_from lo n g.
Proof.
  induction n as [|k IH]; intros lo H; simpl; [lra|].
  assert (f lo <= g lo) by (apply H; lia).
  assert (Qsum_from (lo + 1) k f <= Qsum_from (lo + 1) k g).
  { apply IH. intros y Hy. apply H. lia. }
  lra.
Qed.

Lemma Qsum_from_lt (f g : Z -> Q) (n : nat) : forall lo,
  (forall y, (lo <= y < lo + Z.of_nat n)%Z -> f y < g y) ->
  (0 < n)%nat -> Qsum_from lo n f < Qsum_from lo n g.
Proof.
  induction n as [|k IH]; intros lo H Hn; [lia|]. simpl.
  assert (f lo < g lo) by (apply H; lia).
  assert (Qsum_from (lo + 1) k f <= Qsum_from (lo + 1) k g).
  { apply Qsum_from_le. intros y Hy. apply Qlt_le_weak, H. lia. }
  lra.
Qed.

Lemma Qsum_from_const (c : Q) (n : nat) : forall lo,
  Qsum_from lo n (fun _ => c) == inject_Z (Z.of_nat n) * c.
Proof.
  induction n as [|k IH]; intros lo.
  - simpl. ring.
  - cbn [Qsum_from]. rewrite IH.
    rewrite Nat2Z.inj_succ. unfold Z.succ. rewrite inject_Z_plus. ring.
Qed.

(** The years that pass the test [year <= Nd] are those up to
    [min hi Nd]. *)
Lemma Qsum_from_cutoff (g : Z -> Q) (Nd : Z) (n : nat) : forall lo,
  Qsum_from lo n (fun y => if (y <=? Nd)%Z then g y else 0)
  == Qsum_from lo
       (Z.to_nat (Z.min (lo + Z.of_nat n - 1) Nd - lo + 1)) g.
Proof.
  induction n as [|k IH]; intros lo.
  - replace (Z.to_nat _) with O by lia. reflexivity.
  - cbn [Qsum_from]. rewrite IH.
    destruct (Z.leb_spec lo Nd) as [Hle|Hgt].
    + replace (Z.to_nat (Z.min (lo + Z.of_nat (S k) - 1) Nd - lo + 1))
        with (S (Z.to_nat (Z.min (lo + 1 + Z.of_nat k - 1) Nd - (lo + 1) + 1)))
        by lia.
      reflexivity.
    + replace (Z.to_nat (Z.min (lo + 1 + Z.of_nat k - 1) Nd - (lo + 1) + 1))
        with O by lia.
      replace (Z.to_nat (Z.min (lo + Z.of_nat (S k) - 1) Nd - lo + 1))
        with O by lia.
      simpl. lra.
Qed.

(** ** The years of the loop *)

Lemma arange_nil (lo hi : Z) : (hi <= lo)%Z -> arange lo hi = [].
Proof.
  intros H. unfold arange. now replace (Z.to_nat (hi - lo)) with O by lia.
Qed.

Lemma arange_cons (lo hi : Z) :
  (lo < hi)%Z -> arange lo hi = lo :: arange (lo + 1) hi.
Proof.
  intros H. unfold arange.
  replace (Z.to_nat (hi - lo)) with (S (Z.to_nat (hi - (lo + 1)))) by lia.
  cbn [seq map]. f_equal; [lia|].
  rewrite <- seq_shift, map_map. apply map_ext. intros i. lia.
Qed.

Lemma arange_In (lo hi y : Z) :
  In y (arange lo hi) <-> (lo <= y < hi)%Z.
Proof.
  unfold arange. rewrite in_map_iff. split.
  - intros (i & <- & Hi). apply in_seq in Hi. lia.
  - intros Hy. exists (Z.to_nat (y - lo)). split; [lia|].
    apply in_seq. lia.
Qed.

Lemma arange_length (lo hi : Z) :
  length (arange lo hi) = Z.to_nat (hi - lo).
Proof. unfold arange. now rewrite length_map, length_seq. Qed.

Lemma Qsum_from_minus (f g : Z -> Q) (n : nat) : forall lo,
  Qsum_from lo n (fun y => f y - g y)
  == Qsum_from lo n f - Qsum_from lo n g.
Proof.
  induction n as [|k IH]; intros lo; simpl; [lra|].
  rewrite IH. ring.
Qed.

Lemma arange_upto (T : Z) :
  arange 1 (T + 1) = arange 1 (1 + Z.of_nat (Z.to_nat T)).
Proof. unfold arange. do 2 f_equal. lia. Qed.

(** ** The loop computes the sums of the formula *)

Section Loop.

Variables (Ef : Q) (econ : Econ) (deg : Q) (Nd : Z) (Dn : Q).

Lemma lcoe_year_ok (lcoe_num lcoe_den : Q) (year : Z) :
  ~ 1 + d econ / 100 == 0 ->
  lcoe_year Ef econ deg Nd Dn (lcoe_num, lcoe_den) year
  = Ok (if (year <=? Nd)%Z
        then lcoe_num + opex_term econ year - shield_of econ Dn year
        else lcoe_num + opex_term econ year,
        lcoe_den + yield_term Ef econ deg year).
Proof.
  intros Hd. unfold lcoe_year, pow.
  pose proof (discount_nonzero econ year Hd) as Hy. unfold discount in Hy.
  rewrite !(truediv_ok _ _ _ Hy). cbn [bind].
  destruct (year <=? Nd)%Z; reflexivity.
Qed.

Lemma lcoe_year_zero_discount (st : Q * Q) (year : Z) :
  1 + d econ / 100 == 0 -> (1 <= year)%Z ->
  lcoe_year Ef econ deg Nd Dn st year = Raise (ZeroDivisionError At_opex).
Proof.
  intros Hd Hy. destruct st as [lcoe_num lcoe_den]. unfold lcoe_year, pow.
  pose proof (discount_zero econ year Hd Hy) as H0. unfold discount in H0.
  now rewrite (truediv_zero _ _ _ H0).
Qed.

Lemma for_each_year_ok (n : nat) : forall (lo : Z) (lcoe_num lcoe_den : Q),
  ~ 1 + d econ / 100 == 0 ->
  exists num den,
    for_each (lcoe_year Ef econ deg Nd Dn)
      (arange lo (lo + Z.of_nat n)) (lcoe_num, lcoe_den) = Ok (num, den)
    /\ num == lcoe_num
              + Qsum_from lo n
                  (fun y => opex_term econ y
                            - (if (y <=? Nd)%Z then shield_of econ Dn y else 0))
    /\ den == lcoe_den + Qsum_from lo n (yield_term Ef econ deg).
Proof.
  induction n as [|k IH]; intros lo lcoe_num lcoe_den Hd.
  - rewrite arange_nil by lia. exists lcoe_num, lcoe_den.
    simpl. repeat split; lra.
  - rewrite arange_cons by lia. cbn [for_each].
    rewrite lcoe_year_ok by assumption. cbn [bind].
    replace (lo + Z.of_nat (S k))%Z with (lo + 1 + Z.of_nat k)%Z by lia.
    match goal with
    | |- context [for_each _ _ (?a, ?b)] =>
        destruct (IH (lo + 1)%Z a b Hd) as (num & den & Hrun & Hnum & Hden)
    end.
    exists num, den. split; [exact Hrun|]. cbn [Qsum_from].
    split.
    + rewrite Hnum. destruct (lo <=? Nd)%Z; ring.
    + rewrite Hden. ring.
Qed.

End Loop.

Lemma lcoe_loop_ok (Ef : Q) (econ : Econ) (T : Z) (deg : Q) (Nd : Z) :
  ~ 1 + d econ / 100 == 0 ->
  exists num den,
    lcoe_loop Ef econ T deg Nd (capex econ / inject_Z Nd) = Ok (num, den)
    /\ num == lcoe_numerator econ T Nd
    /\ den == lcoe_denominator Ef econ T deg.
Proof.
  intros Hd. unfold lcoe_loop. rewrite arange_upto.
  destruct (for_each_year_ok Ef econ deg Nd (capex econ / inject_Z Nd)
              (Z.to_nat T) 1 (capex econ) 0 Hd)
    as (num & den & Hrun & Hnum & Hden).
  exists num, den. split; [exact Hrun|]. split.
  - rewrite Hnum. unfold lcoe_numerator, Qsum.
    rewrite Qsum_from_minus, Qsum_from_cutoff.
    replace (Z.to_nat (T - 1 + 1)) with (Z.to_nat T) by lia.
    replace (Z.to_nat (Z.min (1 + Z.of_nat (Z.to_nat T) - 1) Nd - 1 + 1))
      with (Z.to_nat (Z.min T Nd - 1 + 1)) by lia.
    rewrite (Qsum_from_ext
               (fun y => capex econ / inject_Z Nd * Tx econ / 100
                         / discount econ y)
               (shield_term econ Nd)).
    + ring.
    + intros y _. unfold shield_term, Qdiv. ring.
  - rewrite Hden. unfold lcoe_denominator, Qsum.
    replace (Z.to_nat (T - 1 + 1)) with (Z.to_nat T) by lia. ring.
Qed.

Lemma inject_Z_nonzero (z : Z) : z <> 0%Z -> ~ inject_Z z == 0.
Proof.
  intros Hz H. apply Hz. unfold Qeq, inject_Z in H. simpl in H. lia.
Qed.

(** With a discount factor that does not vanish, the call is the quotient of
    the two sums of the formula, or the exception of the last line. *)
Lemma calculate_lcoe_formula (Ef : Q) (econ : Econ) (T : Z) (deg : Q) (Nd : Z) :
  ~ 1 + d econ / 100 == 0 -> Nd <> 0%Z ->
  calculate_lcoe Ef econ T deg Nd
  =r= truediv At_return (lcoe_numerator econ T Nd)
        (lcoe_denominator Ef econ T deg).
Proof.
  intros Hd HNd. unfold calculate_lcoe.
  rewrite truediv_ok by now apply inject_Z_nonzero. cbn [bind].
  destruct (lcoe_loop_ok Ef econ T deg Nd Hd) as (num & den & -> & Hn & Hden).
  cbn [bind fst snd]. now apply truediv_compat.
Qed.

(** With a discount rate of -100 % the first year already divides by zero. *)
Lemma calculate_lcoe_zero_discount (Ef : Q) (econ : Econ) (T : Z) (deg : Q)
  (Nd : Z) :
  1 + d econ / 100 == 0 -> (1 <= T)%Z -> Nd <> 0%Z ->
  calculate_lcoe Ef econ T deg Nd = Raise (ZeroDivisionError At_opex).
Proof.
  intros Hd HT HNd. unfold calculate_lcoe.
  rewrite truediv_ok by now apply inject_Z_nonzero. cbn [bind].
  unfold lcoe_loop. rewrite arange_cons by lia. cbn [for_each].
  rewrite lcoe_year_zero_discount by (assumption || lia). reflexivity.
Qed.

(** ** Which statement can raise *)

Lemma result_eq_Raise (r : result Q) (e : exn) :
  r =r= Raise e -> r = Raise e.
Proof. destruct r; simpl; [tauto|congruence]. Qed.

Lemma result_eq_Ok (r : result Q) (v : Q) :
  r =r= Ok v -> exists v', r = Ok v' /\ v' == v.
Proof. destruct r as [v'|e]; simpl; [eauto|tauto]. Qed.

(** Without a year to iterate over, the denominator is still zero at the
    last line. *)
Lemma calculate_lcoe_no_year (Ef : Q) (econ : Econ) (T : Z) (deg : Q)
  (Nd : Z) :
  (T <= 0)%Z -> Nd <> 0%Z ->
  calculate_lcoe Ef econ T deg Nd = Raise (ZeroDivisionError At_return).
Proof.
  intros HT HNd. unfold calculate_lcoe.
  rewrite truediv_ok by now apply inject_Z_nonzero. cbn [bind].
  unfold lcoe_loop. rewrite arange_nil by lia. reflexivity.
Qed.

Lemma calculate_lcoe_Nd_zero (Ef : Q) (econ : Econ) (T : Z) (deg : Q) :
  calculate_lcoe Ef econ T deg 0 = Raise (ZeroDivisionError At_Dn).
Proof. reflexivity. Qed.

Lemma Qeq_dec_zero (x : Q) : {x == 0} + {~ x == 0}.
Proof. apply Qeq_dec. Qed.

(** A call with [Nd <> 0] can only fail in the first division of the loop
    or in the last line. *)
Lemma calculate_lcoe_sites (Ef : Q) (econ : Econ) (T : Z) (deg : Q) (Nd : Z)
  (s : site) :
  Nd <> 0%Z ->
  calculate_lcoe Ef econ T deg Nd = Raise (ZeroDivisionError s) ->
  s = At_opex \/ s = At_return.
Proof.
  intros HNd H.
  destruct (Qeq_dec_zero (1 + d econ / 100)) as [Hd|Hd].
  - destruct (Z_le_gt_dec T 0) as [HT|HT].
    + rewrite calculate_lcoe_no_year in H by assumption.
      right. congruence.
    + rewrite calculate_lcoe_zero_discount in H by (assumption || lia).
      left. congruence.
  - pose proof (calculate_lcoe_formula Ef econ T deg Nd Hd HNd) as F.
    rewrite H in F. unfold truediv in F.
    destruct (Qeq_bool _ 0); simpl in F; [|tauto].
    right. congruence.
Qed.

(** ** Sums that vanish or collapse *)

Lemma shield_sum_zero (econ : Econ) (Nd lo hi : Z) :
  Tx econ == 0 -> Qsum lo hi (shield_term econ Nd) == 0.
Proof.
  intros HTx. unfold Qsum. apply Qsum_from_zero. intros y _.
  unfold shield_term. rewrite HTx. unfold Qdiv. ring.
Qed.

Lemma opex_sum_zero (econ : Econ) (lo hi : Z) :
  opex econ == 0 -> Qsum lo hi (opex_term econ) == 0.
Proof.
  intros Ho. unfold Qsum. apply Qsum_from_zero. intros y _.
  unfold opex_term. rewrite Ho. unfold Qdiv. ring.
Qed.

Lemma yield_sum_zero (Ef : Q) (econ : Econ) (deg : Q) (lo hi : Z) :
  Ef == 0 -> Qsum lo hi (yield_term Ef econ deg) == 0.
Proof.
  intros HEf. unfold Qsum. apply Qsum_from_zero. intros y _.
  unfold yield_term. rewrite HEf. unfold Qdiv. ring.
Qed.

Lemma yield_sum_flat (Ef : Q) (econ : Econ) (deg : Q) (T : Z) :
  (0 <= T)%Z -> deg == 0 -> d econ == 0 ->
  lcoe_denominator Ef econ T deg == Ef * inject_Z T.
Proof.
  intros HT Hdeg Hd. unfold lcoe_denominator, Qsum.
  rewrite (Qsum_from_ext _ (fun _ => Ef)).
  - rewrite Qsum_from_const.
    replace (Z.of_nat (Z.to_nat (T - 1 + 1))) with T by lia. ring.
  - intros y _. unfold yield_term, discount. rewrite Hdeg, Hd.
    setoid_replace (1 - 0) with 1 by ring.
    setoid_replace (1 + 0 / 100) with 1 by reflexivity.
    rewrite !Qpower_1. field.
Qed.

(** ** The claims *)

(** C1. For every input with [T >= 1] and [Nd <> 0], [calculate_lcoe]
    returns [numerator / denominator], with
    [numerator = capex + sum_{year=1..T} opex*(1-Tx/100)*(1+rom/100)^year
    /(1+d/100)^year - sum_{year=1..min(T,Nd)} (capex/Nd)*(Tx/100)
    /(1+d/100)^year] and [denominator = sum_{year=1..T} Ef*(1-deg)^year
    /(1+d/100)^year], the years ranging over the closed interval [1..T]:
    the call is the division of the last line applied to these two sums.
    Where the formula itself divides by zero, that is where the discount
    factor [1 + d/100] is zero, the call fails in the first division of the
    first year. *)
Theorem calculate_lcoe_returns_formula (Ef : Q) (econ : Econ) (T : Z)
  (deg : Q) (Nd : Z) :
  (1 <= T)%Z -> Nd <> 0%Z ->
  (~ 1 + d econ / 100 == 0 ->
   calculate_lcoe Ef econ T deg Nd
   =r= truediv At_return (lcoe_numerator econ T Nd)
         (lcoe_denominator Ef econ T deg))
  /\ (1 + d econ / 100 == 0 ->
      calculate_lcoe Ef econ T deg Nd = Raise (ZeroDivisionError At_opex))
  /\ (forall year, In year (arange 1 (T + 1)) <-> (1 <= year <= T)%Z).
Proof.
  intros HT HNd. split; [|split].
  - intros Hd. now apply calculate_lcoe_formula.
  - intros Hd. now apply calculate_lcoe_zero_discount.
  - intros year. rewrite arange_In. lia.
Qed.

Lemma calculate_lcoe_returns_formula_witness :
  (1 <= 25)%Z /\ 20%Z <> 0%Z
  /\ calculate_lcoe scenario_Ef scenario_econ 25 (1 # 100) 20
     =r= truediv At_return (lcoe_numerator scenario_econ 25 20)
           (lcoe_denominator scenario_Ef scenario_econ 25 (1 # 100)).
Proof.
  split; [lia|]. split; [lia|].
  apply (calculate_lcoe_returns_formula scenario_Ef scenario_econ 25
           (1 # 100) 20); [lia|lia|].
  intros H. vm_compute in H. discriminate.
Defined.

(** C2. With [Ef = 0], [T >= 1] and [Nd >= 1] the denominator sums to zero
    and the call fails with a division by zero instead of returning a
    number: in the last line, or already in the first year when the discount
    factor is zero as well. *)
Theorem calculate_lcoe_zero_yield (Ef : Q) (econ : Econ) (T : Z) (deg : Q)
  (Nd : Z) :
  Ef == 0 -> (1 <= T)%Z -> (1 <= Nd)%Z ->
  lcoe_denominator Ef econ T deg == 0
  /\ calculate_lcoe Ef econ T deg Nd
     = Raise (ZeroDivisionError
                (if Qeq_bool (1 + d econ / 100) 0 then At_opex
                 else At_return)).
Proof.
  intros HEf HT HNd.
  assert (Hden : lcoe_denominator Ef econ T deg == 0)
    by now apply yield_sum_zero.
  split; [exact Hden|].
  destruct (Qeq_bool (1 + d econ / 100) 0) eqn:E.
  - apply Qeq_bool_eq in E. apply calculate_lcoe_zero_discount; [easy|lia|lia].
  - apply Qeq_bool_neq in E. apply result_eq_Raise.
    rewrite <- (truediv_zero At_return (lcoe_numerator econ T Nd) _ Hden).
    apply calculate_lcoe_formula; [easy|lia].
Qed.

Lemma calculate_lcoe_zero_yield_witness :
  calculate_lcoe 0 scenario_econ 25 (1 # 100) 20
  = Raise (ZeroDivisionError At_return).
Proof.
  apply (calculate_lcoe_zero_yield 0 scenario_econ 25 (1 # 100) 20);
    [reflexivity|lia|lia].
Defined.

(** C3. With [Ef > 0], [capex >= 0], [T >= 1], [Nd >= 1] and any escalation
    rate, if [opex = 0], [Tx = 0], [deg = 0] and [d = 0] then the call
    returns exactly [capex / (Ef * T)]. *)
Theorem calculate_lcoe_undiscounted (Ef : Q) (econ : Econ) (T : Z) (deg : Q)
  (Nd : Z) :
  0 < Ef -> 0 <= capex econ -> (1 <= T)%Z -> (1 <= Nd)%Z ->
  opex econ == 0 -> Tx econ == 0 -> deg == 0 -> d econ == 0 ->
  calculate_lcoe Ef econ T deg Nd =r= Ok (capex econ / (Ef * inject_Z T)).
Proof.
  intros HEf Hc HT HNd Ho HTx Hdeg Hd.
  assert (Hbase : ~ 1 + d econ / 100 == 0).
  { rewrite Hd. intros H. vm_compute in H. discriminate. }
  assert (HTq : 0 < inject_Z T).
  { change 0 with (inject_Z 0). rewrite <- Zlt_Qlt. lia. }
  assert (Hnz : ~ Ef * inject_Z T == 0).
  { assert (0 < Ef * inject_Z T) by now apply Qmult_lt_0_compat. lra. }
  eapply result_eq_trans; [apply calculate_lcoe_formula; [easy|lia]|].
  rewrite <- (truediv_ok At_return _ _ Hnz).
  apply truediv_compat.
  - unfold lcoe_numerator.
    rewrite opex_sum_zero, shield_sum_zero by assumption. ring.
  - apply yield_sum_flat; [lia|easy|easy].
Qed.

Lemma calculate_lcoe_undiscounted_witness :
  calculate_lcoe 1500 (mkEcon 1000 0 0 0 2) 25 0 20
  =r= Ok (1000 / (1500 * inject_Z 25)).
Proof.
  apply (calculate_lcoe_undiscounted 1500 (mkEcon 1000 0 0 0 2) 25 0 20);
    simpl; (reflexivity || lia || lra).
Defined.

(** C7, as amended. The division by zero in the annual depreciation amount
    [capex / Nd], raised before the loop starts, occurs exactly when
    [Nd = 0]: a negative [Nd] divides without error. *)
Theorem calculate_lcoe_fails_at_Dn (Ef : Q) (econ : Econ) (T : Z) (deg : Q)
  (Nd : Z) :
  calculate_lcoe Ef econ T deg Nd = Raise (ZeroDivisionError At_Dn)
  <-> Nd = 0%Z.
Proof.
  split.
  - intros H. destruct (Z.eq_dec Nd 0) as [E|E]; [exact E|].
    destruct (calculate_lcoe_sites Ef econ T deg Nd At_Dn E H); discriminate.
  - intros ->. apply calculate_lcoe_Nd_zero.
Qed.

Lemma calculate_lcoe_fails_at_Dn_witness :
  calculate_lcoe scenario_Ef scenario_econ 25 (1 # 100) 0
  = Raise (ZeroDivisionError At_Dn).
Proof.
  apply (proj2 (calculate_lcoe_fails_at_Dn scenario_Ef scenario_econ 25
                  (1 # 100) 0)).
  reflexivity.
Defined.

(** C7, as stated, fails: with [Nd = -1] the scenario returns a number. *)
Lemma calculate_lcoe_negative_Nd_returns :
  ~ (exists s, calculate_lcoe scenario_Ef scenario_econ 25 (1 # 100) (-1)
               = Raise (ZeroDivisionError s)).
Proof.
  intros [s H]. vm_compute in H. discriminate.
Qed.

(** C8. With [Nd > T >= 1] the test [year <= Nd] holds in every year of the
    loop, and the call is the one that subtracts the shield of [capex / Nd]
    in every year: [Nd] is neither rejected nor capped. *)
Theorem calculate_lcoe_long_depreciation (Ef : Q) (econ : Econ) (T : Z)
  (deg : Q) (Nd : Z) :
  (1 <= T)%Z -> (T < Nd)%Z ->
  (forall year, In year (arange 1 (T + 1)) -> (year <=? Nd)%Z = true)
  /\ calculate_lcoe Ef econ T deg Nd = lcoe_shield_every_year Ef econ T deg Nd
  /\ lcoe_numerator econ T Nd
     = capex econ + Qsum 1 T (opex_term econ)
       - Qsum 1 T (shield_term econ Nd).
Proof.
  intros HT HNd.
  assert (Hin : forall year, In year (arange 1 (T + 1)) ->
                             (year <=? Nd)%Z = true).
  { intros year Hy. apply arange_In in Hy. apply Z.leb_le. lia. }
  split; [exact Hin|]. split.
  - unfold calculate_lcoe, lcoe_shield_every_year, lcoe_loop.
    destruct (truediv At_Dn (capex econ) (inject_Z Nd)) as [Dn|e];
      [cbn [bind]|reflexivity].
    f_equal.
    generalize (capex econ, 0) as st.
    induction (arange 1 (T + 1)) as [|year l IH]; intros st; [reflexivity|].
    cbn [for_each].
    assert (Hyear : lcoe_year Ef econ deg Nd Dn st year
                    = lcoe_year_shielded Ef econ deg Dn st year).
    { destruct st as [lcoe_num lcoe_den].
      unfold lcoe_year, lcoe_year_shielded.
      rewrite (Hin year) by now left.
      destruct (truediv At_opex _ _); [cbn [bind]|reflexivity].
      destruct (truediv At_shield _ _); reflexivity. }
    rewrite Hyear.
    destruct (lcoe_year_shielded Ef econ deg Dn st year) as [st'|e];
      [cbn [bind]|reflexivity].
    apply IH. intros y Hy. apply Hin. now right.
  - unfold lcoe_numerator. now rewrite Z.min_l by lia.
Qed.

Lemma calculate_lcoe_long_depreciation_witness :
  calculate_lcoe scenario_Ef scenario_econ 25 (1 # 100) 30
  = lcoe_shield_every_year scenario_Ef scenario_econ 25 (1 # 100) 30.
Proof.
  apply (calculate_lcoe_long_depreciation scenario_Ef scenario_econ 25
           (1 # 100) 30); lia.
Defined.

(** C9. With [T <= 0] and [Nd <> 0] the loop has no year to run over, the
    numerator and denominator stay at [capex] and [0], and the call fails
    with the division by zero of the last line, whatever [Ef] is. *)
Theorem calculate_lcoe_no_lifetime (Ef : Q) (econ : Econ) (T : Z) (deg : Q)
  (Nd : Z) :
  (T <= 0)%Z -> Nd <> 0%Z ->
  arange 1 (T + 1) = []
  /\ (forall Dn, lcoe_loop Ef econ T deg Nd Dn = Ok (capex econ, 0))
  /\ calculate_lcoe Ef econ T deg Nd = Raise (ZeroDivisionError At_return).
Proof.
  intros HT HNd.
  assert (Hnil : arange 1 (T + 1) = []) by (apply arange_nil; lia).
  split; [exact Hnil|]. split.
  - intros Dn. unfold lcoe_loop. now rewrite Hnil.
  - now apply calculate_lcoe_no_year.
Qed.

Lemma calculate_lcoe_no_lifetime_witness :
  calculate_lcoe scenario_Ef scenario_econ 0 (1 # 100) 20
  = Raise (ZeroDivisionError At_return).
Proof.
  apply (calculate_lcoe_no_lifetime scenario_Ef scenario_econ 0 (1 # 100) 20);
    lia.
Defined.

(** C10. With [Tx = 0] the result does not depend on [Nd]: any two nonzero
    values give the same number, or the same failure. *)
Theorem calculate_lcoe_untaxed_any_Nd (Ef : Q) (econ : Econ) (T : Z)
  (deg : Q) (Nd1 Nd2 : Z) :
  Tx econ == 0 -> Nd1 <> 0%Z -> Nd2 <> 0%Z ->
  calculate_lcoe Ef econ T deg Nd1 =r= calculate_lcoe Ef econ T deg Nd2.
Proof.
  intros HTx H1 H2.
  destruct (Z_le_gt_dec T 0) as [HT|HT].
  - rewrite !calculate_lcoe_no_year by assumption. reflexivity.
  - destruct (Qeq_dec_zero (1 + d econ / 100)) as [Hd|Hd].
    + rewrite !calculate_lcoe_zero_discount by (assumption || lia).
      reflexivity.
    + eapply result_eq_trans; [now apply calculate_lcoe_formula|].
      apply result_eq_sym.
      eapply result_eq_trans; [now apply calculate_lcoe_formula|].
      apply truediv_compat; [|reflexivity].
      unfold lcoe_numerator. rewrite !shield_sum_zero by assumption.
      reflexivity.
Qed.

Lemma calculate_lcoe_untaxed_any_Nd_witness :
  calculate_lcoe 1500 (mkEcon 1000 20 0 5 2) 25 (1 # 100) 20
  =r= calculate_lcoe 1500 (mkEcon 1000 20 0 5 2) 25 (1 # 100) 7.
Proof.
  apply (calculate_lcoe_untaxed_any_Nd 1500 (mkEcon 1000 20 0 5 2) 25
           (1 # 100) 20 7); [reflexivity|lia|lia].
Defined.

(** ** Order of results *)

Lemma result_lt_compat (r1 r1' r2 r2' : result Q) :
  r1 =r= r1' -> r2 =r= r2' -> result_lt r1' r2' -> result_lt r1 r2.
Proof.
  destruct r1, r1', r2, r2'; simpl; try tauto.
  intros H1 H2 H. now rewrite H1, H2.
Qed.

Lemma Qdiv_lt_compat (a1 a2 b : Q) : 0 < b -> a1 < a2 -> a1 / b < a2 / b.
Proof.
  intros Hb H. unfold Qdiv. apply Qmult_lt_compat_r; [|exact H].
  now apply Qinv_lt_0_compat.
Qed.

Lemma truediv_lt (s : site) (a1 a2 b : Q) :
  0 < b -> a1 < a2 -> result_lt (truediv s a1 b) (truediv s a2 b).
Proof.
  intros Hb H. assert (Hnz : ~ b == 0) by lra.
  rewrite !truediv_ok by assumption. simpl. now apply Qdiv_lt_compat.
Qed.

Lemma Qdiv_pos (a b : Q) : 0 < a -> 0 < b -> 0 < a / b.
Proof.
  intros Ha Hb. unfold Qdiv. apply Qmult_lt_0_compat; [exact Ha|].
  now apply Qinv_lt_0_compat.
Qed.

Lemma inject_Z_pos (z : Z) : (0 < z)%Z -> 0 < inject_Z z.
Proof. intros H. change 0 with (inject_Z 0). now rewrite <- Zlt_Qlt. Qed.

(** The denominator is positive for a positive yield that degrades by less
    than 100 % a year, discounted at more than -100 %. *)
Lemma lcoe_denominator_pos (Ef : Q) (econ : Econ) (T : Z) (deg : Q) :
  0 < Ef -> deg < 1 -> 0 < 1 + d econ / 100 -> (1 <= T)%Z ->
  0 < lcoe_denominator Ef econ T deg.
Proof.
  intros HEf Hdeg Hd HT. unfold lcoe_denominator, Qsum.
  apply Qsum_from_pos; [|lia]. intros y _. unfold yield_term.
  apply Qdiv_pos; [|now apply discount_pos].
  apply Qmult_lt_0_compat; [exact HEf|]. apply Qpower_0_lt. lra.
Qed.

(** Two calls that differ in what enters the numerator only. *)
Lemma calculate_lcoe_lt (Ef : Q) (econ1 econ2 : Econ) (T : Z) (deg : Q)
  (Nd1 Nd2 : Z) :
  d econ1 = d econ2 ->
  0 < Ef -> deg < 1 -> 0 < 1 + d econ1 / 100 -> (1 <= T)%Z ->
  Nd1 <> 0%Z -> Nd2 <> 0%Z ->
  lcoe_numerator econ1 T Nd1 < lcoe_numerator econ2 T Nd2 ->
  result_lt (calculate_lcoe Ef econ1 T deg Nd1)
            (calculate_lcoe Ef econ2 T deg Nd2).
Proof.
  intros Hdd HEf Hdeg Hd HT H1 H2 Hnum.
  assert (Hd1 : ~ 1 + d econ1 / 100 == 0) by lra.
  assert (Hd2 : ~ 1 + d econ2 / 100 == 0) by (rewrite <- Hdd; lra).
  eapply result_lt_compat;
    [now apply calculate_lcoe_formula|now apply calculate_lcoe_formula|].
  assert (Hden : lcoe_denominator Ef econ2 T deg
                 = lcoe_denominator Ef econ1 T deg).
  { unfold lcoe_denominator, yield_term, discount. now rewrite Hdd. }
  rewrite Hden. apply truediv_lt; [|exact Hnum].
  now apply lcoe_denominator_pos.
Qed.

(** C6, as amended. With [Nd = 0] the call fails at the depreciation amount
    and there is no result to compare.  With a negative [Nd], where the
    shield is never subtracted, the result is strictly larger than with
    [Nd = T], for positive [capex], [Tx] and [Ef], [deg < 1], [d > -100] and
    [T >= 1]. *)
Theorem calculate_lcoe_unshielded_larger (Ef : Q) (econ : Econ) (T : Z)
  (deg : Q) (Nd : Z) :
  0 < capex econ -> 0 < Tx econ -> 0 < Ef -> deg < 1 -> - (100) < d econ ->
  (1 <= T)%Z -> (Nd < 0)%Z ->
  calculate_lcoe Ef econ T deg 0 = Raise (ZeroDivisionError At_Dn)
  /\ result_lt (calculate_lcoe Ef econ T deg T)
               (calculate_lcoe Ef econ T deg Nd).
Proof.
  intros Hc HTx HEf Hdeg Hd HT HNd.
  split; [apply calculate_lcoe_Nd_zero|].
  assert (Hbase : 0 < 1 + d econ / 100).
  { unfold Qdiv. change (/ 100) with (1 # 100). lra. }
  apply calculate_lcoe_lt; try (assumption || reflexivity || lia).
  unfold lcoe_numerator.
  assert (Hnone : Qsum 1 (Z.min T Nd) (shield_term econ Nd) == 0).
  { unfold Qsum. now replace (Z.to_nat (Z.min T Nd - 1 + 1)) with O by lia. }
  assert (Hall : 0 < Qsum 1 (Z.min T T) (shield_term econ T)).
  { unfold Qsum. apply Qsum_from_pos; [|lia]. intros y _.
    unfold shield_term. apply Qdiv_pos; [|now apply discount_pos].
    apply Qmult_lt_0_compat.
    - apply Qdiv_pos; [exact Hc|]. apply inject_Z_pos. lia.
    - apply Qdiv_pos; [exact HTx|]. reflexivity. }
  lra.
Qed.

Lemma calculate_lcoe_unshielded_larger_witness :
  result_lt (calculate_lcoe scenario_Ef scenario_econ 25 (1 # 100) 25)
            (calculate_lcoe scenario_Ef scenario_econ 25 (1 # 100) (-1)).
Proof.
  apply (calculate_lcoe_unshielded_larger scenario_Ef scenario_econ 25
           (1 # 100) (-1)); simpl; (reflexivity || lia).
Defined.

(** C6, as stated, fails: with [Nd = 0] the scenario has no result, so it is
    not larger than the result with [Nd = T]. *)
Lemma calculate_lcoe_Nd_zero_not_larger :
  ~ result_lt (calculate_lcoe scenario_Ef scenario_econ 25 (1 # 100) 25)
              (calculate_lcoe scenario_Ef scenario_econ 25 (1 # 100) 0).
Proof.
  rewrite calculate_lcoe_Nd_zero.
  destruct (calculate_lcoe _ _ _ _ _); simpl; tauto.
Qed.

(** ** What a returned number tells *)

Lemma calculate_lcoe_Ok_inv (Ef : Q) (econ : Econ) (T : Z) (deg : Q) (Nd : Z)
  (v : Q) :
  calculate_lcoe Ef econ T deg Nd = Ok v ->
  Nd <> 0%Z /\ ~ 1 + d econ / 100 == 0
  /\ ~ lcoe_denominator Ef econ T deg == 0
  /\ v == lcoe_numerator econ T Nd / lcoe_denominator Ef econ T deg.
Proof.
  intros H.
  assert (HNd : Nd <> 0%Z).
  { intros ->. rewrite calculate_lcoe_Nd_zero in H. discriminate. }
  assert (Hd : ~ 1 + d econ / 100 == 0).
  { intros Hd. destruct (Z_le_gt_dec T 0) as [HT|HT].
    - rewrite calculate_lcoe_no_year in H by assumption. discriminate.
    - rewrite calculate_lcoe_zero_discount in H by (assumption || lia).
      discriminate. }
  pose proof (calculate_lcoe_formula Ef econ T deg Nd Hd HNd) as F.
  rewrite H in F. unfold truediv in F.
  destruct (Qeq_bool (lcoe_denominator Ef econ T deg) 0) eqn:E;
    simpl in F; [tauto|].
  apply Qeq_bool_neq in E. repeat split; assumption.
Qed.

Lemma lcoe_denominator_scale (Ef1 Ef2 : Q) (econ : Econ) (T : Z) (deg : Q) :
  ~ Ef1 == 0 ->
  lcoe_denominator Ef2 econ T deg
  == Ef2 / Ef1 * lcoe_denominator Ef1 econ T deg.
Proof.
  intros H1. unfold lcoe_denominator, Qsum.
  rewrite <- Qsum_from_scal. apply Qsum_from_ext. intros y _.
  unfold yield_term. unfold Qdiv at 1 3.
  generalize (/ discount econ y) as w. intros w. field. exact H1.
Qed.

(** C5, as amended. For [0 < Ef1 < Ef2], everything else held fixed, if the
    call at [Ef1] returns a positive number then the call at [Ef2] returns a
    strictly smaller one. *)
Theorem calculate_lcoe_yield_decreasing (Ef1 Ef2 : Q) (econ : Econ) (T : Z)
  (deg : Q) (Nd : Z) :
  0 < Ef1 -> Ef1 < Ef2 ->
  returns (calculate_lcoe Ef1 econ T deg Nd) (fun v => 0 < v) ->
  result_lt (calculate_lcoe Ef2 econ T deg Nd)
            (calculate_lcoe Ef1 econ T deg Nd).
Proof.
  intros H1 H12 Hv.
  destruct (calculate_lcoe Ef1 econ T deg Nd) as [v1|e] eqn:E1;
    simpl in Hv; [|tauto].
  destruct (calculate_lcoe_Ok_inv _ _ _ _ _ _ E1) as (HNd & Hd & Hden1 & Hv1).
  assert (HEf1 : ~ Ef1 == 0) by lra.
  pose proof (lcoe_denominator_scale Ef1 Ef2 econ T deg HEf1) as Hscale.
  assert (Hratio : 0 < Ef2 / Ef1) by (apply Qdiv_pos; lra).
  set (den1 := lcoe_denominator Ef1 econ T deg) in *.
  set (num := lcoe_numerator econ T Nd) in *.
  assert (Hden2 : ~ Ef2 / Ef1 * den1 == 0).
  { intros H0. apply Qmult_integral in H0. destruct H0; [lra|tauto]. }
  pose proof (calculate_lcoe_formula Ef2 econ T deg Nd Hd HNd) as F.
  fold num in F.
  assert (F' : calculate_lcoe Ef2 econ T deg Nd
               =r= Ok (num / (Ef2 / Ef1 * den1))).
  { eapply result_eq_trans; [exact F|].
    rewrite <- (truediv_ok At_return _ _ Hden2).
    apply truediv_compat; [reflexivity|exact Hscale]. }
  apply result_eq_Ok in F'. destruct F' as (v2 & -> & Hv2). simpl.
  assert (Hless : 0 < Ef1 / Ef2 /\ Ef1 / Ef2 < 1).
  { split; [apply Qdiv_pos; lra|]. apply Qlt_shift_div_r; lra. }
  assert (Hv21 : v2 == v1 * (Ef1 / Ef2)).
  { rewrite Hv2, Hv1. field. repeat split; try assumption. lra. }
  rewrite Hv21. destruct Hless as [Hpos Hlt1].
  assert (0 < v1 * (1 - Ef1 / Ef2)).
  { apply Qmult_lt_0_compat; lra. }
  lra.
Qed.

Lemma calculate_lcoe_yield_decreasing_witness :
  result_lt (calculate_lcoe 1500 scenario_econ 25 (1 # 100) 20)
            (calculate_lcoe 1000 scenario_econ 25 (1 # 100) 20).
Proof.
  apply (calculate_lcoe_yield_decreasing 1000 1500 scenario_econ 25
           (1 # 100) 20); vm_compute; reflexivity.
Defined.

(** C5, as stated, fails: without costs both yields give the result 0. *)
Lemma calculate_lcoe_free_plant_not_decreasing :
  ~ result_lt (calculate_lcoe 1500 (mkEcon 0 0 25 5 2) 25 (1 # 100) 20)
              (calculate_lcoe 1000 (mkEcon 0 0 25 5 2) 25 (1 # 100) 20).
Proof.
  intros H. vm_compute in H. discriminate.
Qed.

(** ** The weight of capex in the numerator *)

Lemma lcoe_numerator_capex (econ : Econ) (T Nd : Z) :
  lcoe_numerator econ T Nd
  == capex econ * capex_weight econ T Nd + Qsum 1 T (opex_term econ).
Proof.
  unfold lcoe_numerator, capex_weight, shield_weight, Qsum.
  rewrite (Qsum_from_ext (shield_term econ Nd)
             (fun y => capex econ / inject_Z Nd * (Tx econ / 100)
                       * / discount econ y)).
  - rewrite Qsum_from_scal. unfold Qdiv. ring.
  - intros y _. unfold shield_term, Qdiv. ring.
Qed.

Lemma inv_discount_bounds (econ : Econ) (year : Z) :
  0 <= d econ -> (1 <= year)%Z ->
  0 < / discount econ year /\ / discount econ year <= 1
  /\ (0 < d econ -> / discount econ year < 1).
Proof.
  intros Hd Hy.
  assert (Hbase : 1 <= 1 + d econ / 100).
  { unfold Qdiv. change (/ 100) with (1 # 100). lra. }
  assert (Hone : 1 <= discount econ year).
  { unfold discount. apply Qpower_1_le; [exact Hbase|lia]. }
  assert (Hpos : 0 < discount econ year) by lra.
  split; [now apply Qinv_lt_0_compat|]. split.
  - apply Qle_shift_inv_r; [exact Hpos|lra].
  - intros Hd'. apply Qlt_shift_inv_r; [exact Hpos|].
    assert (1 < discount econ year).
    { unfold discount. apply Qpower_1_lt; [|lia].
      unfold Qdiv. change (/ 100) with (1 # 100). lra. }
    lra.
Qed.

Lemma shield_weight_bounds (econ : Econ) (T Nd : Z) :
  0 <= d econ -> (1 <= T)%Z -> (1 <= Nd)%Z ->
  0 < shield_weight econ T Nd
  /\ shield_weight econ T Nd <= inject_Z (Z.min T Nd)
  /\ (0 < d econ -> shield_weight econ T Nd < inject_Z (Z.min T Nd)).
Proof.
  intros Hd HT HNd. unfold shield_weight, Qsum.
  set (n := Z.to_nat (Z.min T Nd - 1 + 1)).
  assert (Hn : Z.of_nat n = Z.min T Nd) by lia.
  assert (Hconst : Qsum_from 1 n (fun _ => 1) == inject_Z (Z.min T Nd)).
  { rewrite Qsum_from_const, Hn. ring. }
  split; [|split].
  - apply Qsum_from_pos; [|lia]. intros y Hy.
    apply inv_discount_bounds; [exact Hd|lia].
  - rewrite <- Hconst. apply Qsum_from_le. intros y Hy.
    apply inv_discount_bounds; [exact Hd|lia].
  - intros Hd'. rewrite <- Hconst. apply Qsum_from_lt; [|lia]. intros y Hy.
    apply inv_discount_bounds; [exact Hd|lia|exact Hd'].
Qed.

(** Below a tax rate of 100 %, or with discounting, or when depreciation
    outlasts the lifetime, the shield is worth less than the outlay. *)
Lemma capex_weight_pos (econ : Econ) (T Nd : Z) :
  0 <= d econ -> (1 <= T)%Z -> (1 <= Nd)%Z -> Tx econ <= 100 ->
  Tx econ < 100 \/ 0 < d econ \/ (T < Nd)%Z ->
  0 < capex_weight econ T Nd.
Proof.
  intros Hd HT HNd HTx Hstrict. unfold capex_weight.
  destruct (shield_weight_bounds econ T Nd Hd HT HNd) as (Hpos & Hle & Hlt).
  assert (HNdq : 0 < inject_Z Nd) by (apply inject_Z_pos; lia).
  assert (Hmin : inject_Z (Z.min T Nd) <= inject_Z Nd).
  { rewrite <- Zle_Qle. lia. }
  set (u := shield_weight econ T Nd / inject_Z Nd).
  assert (Hu0 : 0 < u) by now apply Qdiv_pos.
  assert (Hu1 : u <= 1).
  { apply Qle_shift_div_r; [exact HNdq|lra]. }
  assert (Hu : 0 < d econ \/ (T < Nd)%Z -> u < 1).
  { intros H. apply Qlt_shift_div_r; [exact HNdq|].
    destruct H as [H|H]; [specialize (Hlt H); lra|].
    assert (inject_Z (Z.min T Nd) < inject_Z Nd)
      by (rewrite <- Zlt_Qlt; lia).
    lra. }
  set (p := Tx econ / 100).
  assert (Hp : p <= 1).
  { unfold p, Qdiv. change (/ 100) with (1 # 100). lra. }
  assert (Hp' : Tx econ < 100 -> p < 1).
  { intros H. unfold p, Qdiv. change (/ 100) with (1 # 100). lra. }
  assert (Hsplit : 1 - p * u == (1 - u) + u * (1 - p)) by ring.
  rewrite Hsplit.
  destruct Hstrict as [H|H].
  - specialize (Hp' H).
    assert (0 < u * (1 - p)) by (apply Qmult_lt_0_compat; lra).
    lra.
  - specialize (Hu H).
    assert (0 <= u * (1 - p)) by (apply Qmult_le_0_compat; lra).
    lra.
Qed.

(** With a positive denominator, the result grows with [capex] as soon as
    the weight of [capex] is positive. *)
Lemma calculate_lcoe_capex_weight (Ef : Q) (econ : Econ) (T : Z) (deg : Q)
  (Nd : Z) (c1 c2 : Q) :
  0 < Ef -> deg < 1 -> 0 < 1 + d econ / 100 -> (1 <= T)%Z -> Nd <> 0%Z ->
  0 < capex_weight econ T Nd -> c1 < c2 ->
  result_lt (calculate_lcoe Ef (with_capex econ c1) T deg Nd)
            (calculate_lcoe Ef (with_capex econ c2) T deg Nd).
Proof.
  intros HEf Hdeg Hd HT HNd Hw Hc.
  apply calculate_lcoe_lt; try (assumption || reflexivity).
  rewrite !lcoe_numerator_capex.
  change (capex_weight (with_capex econ c1) T Nd)
    with (capex_weight econ T Nd).
  change (capex_weight (with_capex econ c2) T Nd)
    with (capex_weight econ T Nd).
  change (Qsum 1 T (opex_term (with_capex econ c2)))
    with (Qsum 1 T (opex_term (with_capex econ c1))).
  cbn [capex with_capex].
  assert (0 < (c2 - c1) * capex_weight econ T Nd)
    by (apply Qmult_lt_0_compat; lra).
  lra.
Qed.

(** C4, as amended. For [Ef > 0], [deg < 1], [T >= 1], [Nd >= 1], [d >= 0]
    and [Tx <= 100], with [Tx < 100] or [d > 0] or [T < Nd], and everything
    but [capex] held fixed: for [capex1 < capex2] the result at [capex2] is
    strictly greater than at [capex1]. *)
Theorem calculate_lcoe_capex_increasing (Ef : Q) (econ : Econ) (T : Z)
  (deg : Q) (Nd : Z) (c1 c2 : Q) :
  0 < Ef -> deg < 1 -> (1 <= T)%Z -> (1 <= Nd)%Z ->
  0 <= d econ -> Tx econ <= 100 ->
  Tx econ < 100 \/ 0 < d econ \/ (T < Nd)%Z ->
  c1 < c2 ->
  result_lt (calculate_lcoe Ef (with_capex econ c1) T deg Nd)
            (calculate_lcoe Ef (with_capex econ c2) T deg Nd).
Proof.
  intros HEf Hdeg HT HNd Hd HTx Hstrict Hc.
  apply calculate_lcoe_capex_weight; try assumption.
  - unfold Qdiv. change (/ 100) with (1 # 100). lra.
  - lia.
  - now apply capex_weight_pos.
Qed.

Lemma calculate_lcoe_capex_increasing_witness :
  result_lt
    (calculate_lcoe scenario_Ef (with_capex scenario_econ 1000) 25
       (1 # 100) 20)
    (calculate_lcoe scenario_Ef (with_capex scenario_econ 1200) 25
       (1 # 100) 20).
Proof.
  apply (calculate_lcoe_capex_increasing scenario_Ef scenario_econ 25
           (1 # 100) 20 1000 1200);
    try lia; try (vm_compute; reflexivity).
  - vm_compute. discriminate.
  - vm_compute. discriminate.
  - left. vm_compute. reflexivity.
Defined.

(** C4, as stated, fails: at a tax rate of 100 % without discounting the
    shield repays the whole outlay, and the result is the same for both
    values of [capex]. *)
Lemma calculate_lcoe_full_shield_not_increasing :
  ~ result_lt
      (calculate_lcoe 1500 (with_capex (mkEcon 0 20 100 0 2) 1000) 25
         (1 # 100) 20)
      (calculate_lcoe 1500 (with_capex (mkEcon 0 20 100 0 2) 2000) 25
         (1 # 100) 20).
Proof.
  intros H. vm_compute in H. discriminate.
Qed.

(** ** Every call in closed form *)

Lemma calculate_lcoe_outcome (Ef : Q) (econ : Econ) (T : Z) (deg : Q)
  (Nd : Z) :
  calculate_lcoe Ef econ T deg Nd =r= lcoe_outcome Ef econ T deg Nd.
Proof.
  unfold lcoe_outcome.
  destruct (Z.eqb_spec Nd 0) as [->|HNd].
  - rewrite calculate_lcoe_Nd_zero. reflexivity.
  - destruct (Z.leb_spec 1 T) as [HT|HT];
      destruct (Qeq_bool (1 + d econ / 100) 0) eqn:E; cbn [andb].
    + apply Qeq_bool_eq in E.
      rewrite calculate_lcoe_zero_discount by assumption. reflexivity.
    + apply Qeq_bool_neq in E. now apply calculate_lcoe_formula.
    + rewrite calculate_lcoe_no_year by (assumption || lia).
      unfold lcoe_denominator, Qsum.
      replace (Z.to_nat (T - 1 + 1)) with O by lia. reflexivity.
    + apply Qeq_bool_neq in E. now apply calculate_lcoe_formula.
Qed.

Lemma result_map_compat (f g : Q -> Q) (r1 r2 : result Q) :
  (forall a b, a == b -> f a == g b) ->
  r1 =r= r2 -> result_map f r1 =r= result_map g r2.
Proof.
  intros Hf. destruct r1, r2; simpl; auto.
Qed.

(** The cause of every failure: a failing call stops at the depreciation
    amount because [Nd = 0], or in the first division of the first year
    because the discount factor is zero, or in the last line because the
    denominator is zero.  The divisions of the tax shield and of the yield
    never fail first. *)
Theorem calculate_lcoe_failure_cause (Ef : Q) (econ : Econ) (T : Z)
  (deg : Q) (Nd : Z) (s : site) :
  calculate_lcoe Ef econ T deg Nd = Raise (ZeroDivisionError s) ->
  (s = At_Dn /\ Nd = 0%Z)
  \/ (s = At_opex /\ Nd <> 0%Z /\ (1 <= T)%Z /\ 1 + d econ / 100 == 0)
  \/ (s = At_return /\ Nd <> 0%Z
      /\ lcoe_denominator Ef econ T deg == 0).
Proof.
  intros H. pose proof (calculate_lcoe_outcome Ef econ T deg Nd) as F.
  rewrite H in F. unfold lcoe_outcome in F.
  destruct (Z.eqb_spec Nd 0) as [HNd|HNd].
  - left. simpl in F. split; [congruence|exact HNd].
  - right.
    destruct (Z.leb_spec 1 T) as [HT|HT];
      destruct (Qeq_bool (1 + d econ / 100) 0) eqn:E; cbn [andb] in F.
    + left. apply Qeq_bool_eq in E. simpl in F.
      repeat split; (congruence || assumption).
    + right. unfold truediv in F.
      destruct (Qeq_bool (lcoe_denominator Ef econ T deg) 0) eqn:E';
        simpl in F; [|tauto].
      apply Qeq_bool_eq in E'. repeat split; (congruence || assumption).
    + right. unfold truediv in F.
      destruct (Qeq_bool (lcoe_denominator Ef econ T deg) 0) eqn:E';
        simpl in F; [|tauto].
      apply Qeq_bool_eq in E'. repeat split; (congruence || assumption).
    + right. unfold truediv in F.
      destruct (Qeq_bool (lcoe_denominator Ef econ T deg) 0) eqn:E';
        simpl in F; [|tauto].
      apply Qeq_bool_eq in E'. repeat split; (congruence || assumption).
Qed.

Lemma calculate_lcoe_failure_cause_witness :
  (At_return = At_Dn /\ 20%Z = 0%Z)
  \/ (At_return = At_opex /\ 20%Z <> 0%Z /\ (1 <= 25)%Z
      /\ 1 + d scenario_econ / 100 == 0)
  \/ (At_return = At_return /\ 20%Z <> 0%Z
      /\ lcoe_denominator 0 scenario_econ 25 (1 # 100) == 0).
Proof.
  apply (calculate_lcoe_failure_cause 0 scenario_econ 25 (1 # 100) 20
           At_return).
  vm_compute. reflexivity.
Defined.

(** A call returns a number exactly when [Nd] is not zero, the discount
    factor is not zero and the discounted yield does not sum to zero; the
    number is then the quotient of the two sums. *)
Theorem calculate_lcoe_returns_iff (Ef : Q) (econ : Econ) (T : Z) (deg : Q)
  (Nd : Z) :
  (exists v, calculate_lcoe Ef econ T deg Nd = Ok v)
  <-> (Nd <> 0%Z /\ ~ 1 + d econ / 100 == 0
       /\ ~ lcoe_denominator Ef econ T deg == 0).
Proof.
  split.
  - intros [v H]. apply calculate_lcoe_Ok_inv in H. tauto.
  - intros (HNd & Hd & Hden).
    pose proof (calculate_lcoe_formula Ef econ T deg Nd Hd HNd) as F.
    rewrite truediv_ok in F by assumption.
    apply result_eq_Ok in F. destruct F as (v & -> & _). now exists v.
Qed.

Lemma calculate_lcoe_returns_iff_witness :
  exists v, calculate_lcoe scenario_Ef scenario_econ 25 (1 # 100) 20 = Ok v.
Proof.
  apply (proj2 (calculate_lcoe_returns_iff scenario_Ef scenario_econ 25
                  (1 # 100) 20)).
  split; [lia|]. split; intros H; vm_compute in H; discriminate.
Defined.

(** ** Changing the units *)

Lemma truediv_scale_divisor (s : site) (k a a' b b' : Q) :
  ~ k == 0 -> a' == a -> b' == k * b ->
  truediv s a' b' =r= result_map (fun v => v / k) (truediv s a b).
Proof.
  intros Hk Ha Hb. unfold truediv.
  destruct (Qeq_bool b 0) eqn:E.
  - apply Qeq_bool_eq in E.
    assert (E' : b' == 0) by (rewrite Hb, E; ring).
    rewrite (Qeq_eq_bool _ _ E'). reflexivity.
  - apply Qeq_bool_neq in E.
    destruct (Qeq_bool b' 0) eqn:E'.
    + apply Qeq_bool_eq in E'. rewrite Hb in E'.
      apply Qmult_integral in E'. tauto.
    + simpl. rewrite Ha, Hb. field. split; assumption.
Qed.

Lemma truediv_scale_dividend (s : site) (k a a' b b' : Q) :
  a' == k * a -> b' == b ->
  truediv s a' b' =r= result_map (fun v => k * v) (truediv s a b).
Proof.
  intros Ha Hb. unfold truediv.
  destruct (Qeq_bool b 0) eqn:E.
  - apply Qeq_bool_eq in E. rewrite <- Hb in E.
    rewrite (Qeq_eq_bool _ _ E). reflexivity.
  - apply Qeq_bool_neq in E.
    destruct (Qeq_bool b' 0) eqn:E'.
    + apply Qeq_bool_eq in E'. rewrite Hb in E'. contradiction.
    + simpl. rewrite Ha, Hb. field. exact E.
Qed.

Lemma lcoe_denominator_linear (k Ef : Q) (econ : Econ) (T : Z) (deg : Q) :
  lcoe_denominator (k * Ef) econ T deg
  == k * lcoe_denominator Ef econ T deg.
Proof.
  unfold lcoe_denominator, Qsum.
  rewrite <- Qsum_from_scal. apply Qsum_from_ext. intros y _.
  unfold yield_term, Qdiv. ring.
Qed.

Lemma lcoe_numerator_linear (k : Q) (econ : Econ) (T Nd : Z) :
  lcoe_numerator (scale_costs k econ) T Nd == k * lcoe_numerator econ T Nd.
Proof.
  unfold lcoe_numerator, Qsum.
  rewrite (Qsum_from_ext (opex_term (scale_costs k econ))
             (fun y => k * opex_term econ y)).
  2: { intros y _. unfold opex_term, discount, Qdiv. cbn [scale_costs opex Tx d rom].
       ring. }
  rewrite (Qsum_from_ext (shield_term (scale_costs k econ) Nd)
             (fun y => k * shield_term econ Nd y)).
  2: { intros y _. unfold shield_term, discount, Qdiv.
       cbn [scale_costs capex Tx d]. ring. }
  rewrite !Qsum_from_scal. cbn [scale_costs capex]. ring.
Qed.

(** The result is inversely proportional to the yearly yield: a yield [k]
    times as large, [k] not zero, divides the returned number by [k], and
    leaves a failure as it is. *)
Theorem calculate_lcoe_yield_proportional (k Ef : Q) (econ : Econ) (T : Z)
  (deg : Q) (Nd : Z) :
  ~ k == 0 ->
  calculate_lcoe (k * Ef) econ T deg Nd
  =r= result_map (fun v => v / k) (calculate_lcoe Ef econ T deg Nd).
Proof.
  intros Hk.
  eapply result_eq_trans; [apply calculate_lcoe_outcome|].
  apply result_eq_sym.
  eapply result_eq_trans.
  { apply (result_map_compat (fun v => v / k) (fun v => v / k)).
    - intros a b Hab. now rewrite Hab.
    - apply calculate_lcoe_outcome. }
  apply result_eq_sym. unfold lcoe_outcome.
  destruct (Nd =? 0)%Z; [reflexivity|].
  destruct ((1 <=? T)%Z && Qeq_bool (1 + d econ / 100) 0); [reflexivity|].
  apply truediv_scale_divisor;
    [exact Hk|reflexivity|apply lcoe_denominator_linear].
Qed.

Lemma calculate_lcoe_yield_proportional_witness :
  calculate_lcoe (2 * scenario_Ef) scenario_econ 25 (1 # 100) 20
  =r= result_map (fun v => v / 2)
        (calculate_lcoe scenario_Ef scenario_econ 25 (1 # 100) 20).
Proof.
  apply (calculate_lcoe_yield_proportional 2 scenario_Ef scenario_econ 25
           (1 # 100) 20).
  intros H. vm_compute in H. discriminate.
Defined.

(** The result is homogeneous in the costs: [capex] and [opex] both
    multiplied by [k] multiply the returned number by [k], and leave a
    failure as it is. *)
Theorem calculate_lcoe_costs_homogeneous (k Ef : Q) (econ : Econ) (T : Z)
  (deg : Q) (Nd : Z) :
  calculate_lcoe Ef (scale_costs k econ) T deg Nd
  =r= result_map (fun v => k * v) (calculate_lcoe Ef econ T deg Nd).
Proof.
  eapply result_eq_trans; [apply calculate_lcoe_outcome|].
  apply result_eq_sym.
  eapply result_eq_trans.
  { apply (result_map_compat (fun v => k * v) (fun v => k * v)).
    - intros a b Hab. now rewrite Hab.
    - apply calculate_lcoe_outcome. }
  apply result_eq_sym. unfold lcoe_outcome.
  destruct (Nd =? 0)%Z; [reflexivity|].
  change (d (scale_costs k econ)) with (d econ).
  destruct ((1 <=? T)%Z && Qeq_bool (1 + d econ / 100) 0); [reflexivity|].
  apply truediv_scale_dividend; [apply lcoe_numerator_linear|reflexivity].
Qed.

(** ** Arguments the result ignores *)

Lemma shield_sum_empty (econ : Econ) (T Nd : Z) :
  (Nd < 0)%Z -> Qsum 1 (Z.min T Nd) (shield_term econ Nd) == 0.
Proof.
  intros H. unfold Qsum.
  now replace (Z.to_nat (Z.min T Nd - 1 + 1)) with O by lia.
Qed.

(** A negative [Nd] switches the tax shield off: the numerator is [capex]
    plus the O&M costs, and any two negative values of [Nd] give the same
    number or the same failure. *)
Theorem calculate_lcoe_negative_Nd (Ef : Q) (econ : Econ) (T : Z) (deg : Q)
  (Nd1 Nd2 : Z) :
  (Nd1 < 0)%Z -> (Nd2 < 0)%Z ->
  lcoe_numerator econ T Nd1 == capex econ + Qsum 1 T (opex_term econ)
  /\ calculate_lcoe Ef econ T deg Nd1 =r= calculate_lcoe Ef econ T deg Nd2.
Proof.
  intros H1 H2.
  assert (Hnum : forall Nd, (Nd < 0)%Z ->
            lcoe_numerator econ T Nd
            == capex econ + Qsum 1 T (opex_term econ)).
  { intros Nd HNd. unfold lcoe_numerator.
    rewrite shield_sum_empty by assumption. ring. }
  split; [now apply Hnum|].
  eapply result_eq_trans; [apply calculate_lcoe_outcome|].
  apply result_eq_sym.
  eapply result_eq_trans; [apply calculate_lcoe_outcome|].
  unfold lcoe_outcome.
  destruct (Z.eqb_spec Nd1 0) as [E|_]; [lia|].
  destruct (Z.eqb_spec Nd2 0) as [E|_]; [lia|].
  destruct ((1 <=? T)%Z && Qeq_bool (1 + d econ / 100) 0); [reflexivity|].
  apply truediv_compat; [|reflexivity].
  now rewrite !Hnum.
Qed.

Lemma calculate_lcoe_negative_Nd_witness :
  calculate_lcoe scenario_Ef scenario_econ 25 (1 # 100) (-1)
  =r= calculate_lcoe scenario_Ef scenario_econ 25 (1 # 100) (-20).
Proof.
  apply (calculate_lcoe_negative_Nd scenario_Ef scenario_econ 25 (1 # 100)
           (-1) (-20)); lia.
Defined.

Lemma opex_sum_untaxed (econ : Econ) (lo hi : Z) :
  Tx econ == 100 -> Qsum lo hi (opex_term econ) == 0.
Proof.
  intros HTx. unfold Qsum. apply Qsum_from_zero. intros y _.
  unfold opex_term. rewrite HTx.
  setoid_replace (1 - 100 / 100) with 0 by reflexivity.
  unfold Qdiv. ring.
Qed.

(** Without O&M costs, or at a tax rate of 100 % that deducts them in full,
    the escalation rate [rom] has no effect on the result. *)
Theorem calculate_lcoe_rom_irrelevant (Ef : Q) (econ : Econ) (T : Z)
  (deg : Q) (Nd : Z) (r1 r2 : Q) :
  opex econ == 0 \/ Tx econ == 100 ->
  calculate_lcoe Ef (with_rom econ r1) T deg Nd
  =r= calculate_lcoe Ef (with_rom econ r2) T deg Nd.
Proof.
  intros H.
  assert (Hsum : forall r, Qsum 1 T (opex_term (with_rom econ r)) == 0).
  { intros r. destruct H as [H|H].
    - now apply opex_sum_zero.
    - now apply opex_sum_untaxed. }
  eapply result_eq_trans; [apply calculate_lcoe_outcome|].
  apply result_eq_sym.
  eapply result_eq_trans; [apply calculate_lcoe_outcome|].
  unfold lcoe_outcome.
  destruct (Nd =? 0)%Z; [reflexivity|].
  change (d (with_rom econ r1)) with (d econ).
  change (d (with_rom econ r2)) with (d econ).
  destruct ((1 <=? T)%Z && Qeq_bool (1 + d econ / 100) 0); [reflexivity|].
  apply truediv_compat; [|reflexivity].
  unfold lcoe_numerator. rewrite !Hsum. reflexivity.
Qed.

Lemma calculate_lcoe_rom_irrelevant_witness :
  calculate_lcoe 1500 (with_rom (mkEcon 1000 0 25 5 0) 2) 25 (1 # 100) 20
  =r= calculate_lcoe 1500 (with_rom (mkEcon 1000 0 25 5 0) 7) 25
        (1 # 100) 20.
Proof.
  apply (calculate_lcoe_rom_irrelevant 1500 (mkEcon 1000 0 25 5 0) 25
           (1 # 100) 20 2 7).
  left. reflexivity.
Defined.

(** ** A plant that degrades completely *)

Lemma yield_sum_dead (Ef : Q) (econ : Econ) (deg : Q) (T : Z) :
  deg == 1 -> lcoe_denominator Ef econ T deg == 0.
Proof.
  intros Hdeg. unfold lcoe_denominator, Qsum. apply Qsum_from_zero.
  intros y Hy. unfold yield_term. rewrite Hdeg.
  setoid_replace (1 - 1) with 0 by reflexivity.
  rewrite Qpower_0 by lia. unfold Qdiv. ring.
Qed.

(** At a degradation rate of 1 every year yields nothing, the denominator
    is zero, and the call fails like a call with no yield: in the last line,
    or in the first year when the discount factor is zero as well. *)
Theorem calculate_lcoe_full_degradation (Ef : Q) (econ : Econ) (T : Z)
  (deg : Q) (Nd : Z) :
  deg == 1 -> (1 <= T)%Z -> Nd <> 0%Z ->
  calculate_lcoe Ef econ T deg Nd
  = Raise (ZeroDivisionError
             (if Qeq_bool (1 + d econ / 100) 0 then At_opex else At_return)).
Proof.
  intros Hdeg HT HNd. apply result_eq_Raise.
  eapply result_eq_trans; [apply calculate_lcoe_outcome|].
  unfold lcoe_outcome.
  destruct (Z.eqb_spec Nd 0) as [E|_]; [contradiction|].
  destruct (Z.leb_spec 1 T) as [_|HT']; [|lia].
  destruct (Qeq_bool (1 + d econ / 100) 0); cbn [andb]; [reflexivity|].
  rewrite truediv_zero by now apply yield_sum_dead. reflexivity.
Qed.

Lemma calculate_lcoe_full_degradation_witness :
  calculate_lcoe scenario_Ef scenario_econ 25 1 20
  = Raise (ZeroDivisionError At_return).
Proof.
  apply (calculate_lcoe_full_degradation scenario_Ef scenario_econ 25 1 20);
    [reflexivity|lia|lia].
Defined.

(** ** What the tax shield is worth *)

Lemma base_pos (econ : Econ) : - (100) < d econ -> 0 < 1 + d econ / 100.
Proof. intros H. unfold Qdiv. change (/ 100) with (1 # 100). lra. Qed.

Lemma shield_term_pos (econ : Econ) (Nd year : Z) :
  0 < capex econ -> 0 < Tx econ -> 0 < 1 + d econ / 100 -> (1 <= Nd)%Z ->
  0 < shield_term econ Nd year.
Proof.
  intros Hc HTx Hd HNd. unfold shield_term.
  apply Qdiv_pos; [|now apply discount_pos].
  apply Qmult_lt_0_compat.
  - apply Qdiv_pos; [exact Hc|]. apply inject_Z_pos. lia.
  - apply Qdiv_pos; [exact HTx|]. reflexivity.
Qed.

(** Depreciating over any number [Nd >= 1] of years lowers the result below
    the one without tax shield (a negative number of years), for positive
    [capex], [Tx] and [Ef], [deg < 1], [d > -100] and [T >= 1]. *)
Theorem calculate_lcoe_shield_lowers (Ef : Q) (econ : Econ) (T : Z) (deg : Q)
  (Nd Nd' : Z) :
  0 < capex econ -> 0 < Tx econ -> 0 < Ef -> deg < 1 -> - (100) < d econ ->
  (1 <= T)%Z -> (1 <= Nd)%Z -> (Nd' < 0)%Z ->
  result_lt (calculate_lcoe Ef econ T deg Nd)
            (calculate_lcoe Ef econ T deg Nd').
Proof.
  intros Hc HTx HEf Hdeg Hd HT HNd HNd'.
  pose proof (base_pos econ Hd) as Hbase.
  apply calculate_lcoe_lt; try (assumption || reflexivity || lia).
  unfold lcoe_numerator. rewrite (shield_sum_empty econ T Nd') by assumption.
  assert (0 < Qsum 1 (Z.min T Nd) (shield_term econ Nd)).
  { unfold Qsum. apply Qsum_from_pos; [|lia]. intros y _.
    now apply shield_term_pos. }
  lra.
Qed.

Lemma calculate_lcoe_shield_lowers_witness :
  result_lt (calculate_lcoe scenario_Ef scenario_econ 25 (1 # 100) 20)
            (calculate_lcoe scenario_Ef scenario_econ 25 (1 # 100) (-1)).
Proof.
  apply (calculate_lcoe_shield_lowers scenario_Ef scenario_econ 25
           (1 # 100) 20 (-1)); simpl; (reflexivity || lia).
Defined.

(** Depreciation years beyond the lifetime are lost: for [T <= Nd1 < Nd2]
    the shield of each year shrinks with [capex / Nd] while the years that
    carry it stay [1..T], and the result at [Nd2] is strictly larger than at
    [Nd1].  In particular a value of [Nd] above [T] does not act like
    [Nd = T]. *)
Theorem calculate_lcoe_late_depreciation (Ef : Q) (econ : Econ) (T : Z)
  (deg : Q) (Nd1 Nd2 : Z) :
  0 < capex econ -> 0 < Tx econ -> 0 < Ef -> deg < 1 -> - (100) < d econ ->
  (1 <= T)%Z -> (T <= Nd1)%Z -> (Nd1 < Nd2)%Z ->
  result_lt (calculate_lcoe Ef econ T deg Nd1)
            (calculate_lcoe Ef econ T deg Nd2).
Proof.
  intros Hc HTx HEf Hdeg Hd HT H1 H12.
  pose proof (base_pos econ Hd) as Hbase.
  apply calculate_lcoe_lt; try (assumption || reflexivity || lia).
  unfold lcoe_numerator. rewrite !Z.min_l by lia.
  assert (Qsum 1 T (shield_term econ Nd2) < Qsum 1 T (shield_term econ Nd1)).
  { unfold Qsum. apply Qsum_from_lt; [|lia]. intros y _.
    unfold shield_term. apply Qdiv_lt_compat; [now apply discount_pos|].
    apply Qmult_lt_compat_r; [apply Qdiv_pos; [exact HTx|reflexivity]|].
    assert (Hq1 : 0 < inject_Z Nd1) by (apply inject_Z_pos; lia).
    assert (Hq2 : 0 < inject_Z Nd2) by (apply inject_Z_pos; lia).
    assert (Hq12 : inject_Z Nd1 < inject_Z Nd2) by (rewrite <- Zlt_Qlt; lia).
    unfold Qdiv. rewrite !(Qmult_comm (capex econ)).
    apply Qmult_lt_compat_r; [exact Hc|].
    now apply -> Qinv_lt_contravar. }
  lra.
Qed.

Lemma calculate_lcoe_late_depreciation_witness :
  result_lt (calculate_lcoe scenario_Ef scenario_econ 25 (1 # 100) 25)
            (calculate_lcoe scenario_Ef scenario_econ 25 (1 # 100) 30).
Proof.
  apply (calculate_lcoe_late_depreciation scenario_Ef scenario_econ 25
           (1 # 100) 25 30); simpl; (reflexivity || lia).
Defined.

(** ** Monotonicity in the O&M costs and in the degradation *)

(** Higher O&M costs raise the result: for [Ef > 0], [deg < 1], [d > -100],
    [T >= 1], [Nd <> 0], a tax rate below 100 % and an escalation rate above
    -100 %, [opex1 < opex2] gives a strictly greater result. *)
Theorem calculate_lcoe_opex_increasing (Ef : Q) (econ : Econ) (T : Z)
  (deg : Q) (Nd : Z) (o1 o2 : Q) :
  0 < Ef -> deg < 1 -> - (100) < d econ -> (1 <= T)%Z -> Nd <> 0%Z ->
  Tx econ < 100 -> - (100) < rom econ -> o1 < o2 ->
  result_lt (calculate_lcoe Ef (with_opex econ o1) T deg Nd)
            (calculate_lcoe Ef (with_opex econ o2) T deg Nd).
Proof.
  intros HEf Hdeg Hd HT HNd HTx Hrom Ho.
  pose proof (base_pos econ Hd) as Hbase.
  apply calculate_lcoe_lt; try (assumption || reflexivity).
  unfold lcoe_numerator.
  change (Qsum 1 (Z.min T Nd) (shield_term (with_opex econ o2) Nd))
    with (Qsum 1 (Z.min T Nd) (shield_term (with_opex econ o1) Nd)).
  cbn [capex with_opex].
  assert (Qsum 1 T (opex_term (with_opex econ o1))
          < Qsum 1 T (opex_term (with_opex econ o2))).
  { unfold Qsum. apply Qsum_from_lt; [|lia]. intros y _.
    unfold opex_term. cbn [opex Tx rom with_opex].
    change (discount (with_opex econ o1) y) with (discount econ y).
    change (discount (with_opex econ o2) y) with (discount econ y).
    apply Qdiv_lt_compat; [now apply discount_pos|].
    apply Qmult_lt_compat_r.
    - apply Qpower_0_lt. unfold Qdiv. change (/ 100) with (1 # 100). lra.
    - apply Qmult_lt_compat_r; [|exact Ho].
      unfold Qdiv. change (/ 100) with (1 # 100). lra. }
  lra.
Qed.

Lemma calculate_lcoe_opex_increasing_witness :
  result_lt
    (calculate_lcoe scenario_Ef (with_opex scenario_econ 20) 25 (1 # 100) 20)
    (calculate_lcoe scenario_Ef (with_opex scenario_econ 30) 25 (1 # 100)
       20).
Proof.
  apply (calculate_lcoe_opex_increasing scenario_Ef scenario_econ 25
           (1 # 100) 20 20 30); simpl; (reflexivity || lia).
Defined.

Lemma Qpower_lt_base (a b : Q) (y : Z) :
  0 < a -> a < b -> (1 <= y)%Z -> a ^ y < b ^ y.
Proof.
  intros Ha Hab Hy.
  assert (Hb : b == a * (b / a)) by (field; lra).
  assert (Hratio : 1 < b / a) by (apply Qlt_shift_div_l; lra).
  assert (Hpow : 1 < (b / a) ^ y) by (apply Qpower_1_lt; [exact Hratio|lia]).
  assert (Hay : 0 < a ^ y) by now apply Qpower_0_lt.
  assert (Hby : b ^ y == a ^ y * (b / a) ^ y).
  { rewrite <- Qmult_power. now rewrite <- Hb. }
  rewrite Hby.
  assert (0 < a ^ y * ((b / a) ^ y - 1)) by (apply Qmult_lt_0_compat; lra).
  lra.
Qed.

Lemma lcoe_denominator_degrading (Ef : Q) (econ : Econ) (T : Z)
  (deg1 deg2 : Q) :
  0 < Ef -> deg1 < deg2 -> deg2 < 1 -> 0 < 1 + d econ / 100 -> (1 <= T)%Z ->
  lcoe_denominator Ef econ T deg2 < lcoe_denominator Ef econ T deg1.
Proof.
  intros HEf H12 H2 Hd HT. unfold lcoe_denominator, Qsum.
  apply Qsum_from_lt; [|lia]. intros y Hy. unfold yield_term.
  apply Qdiv_lt_compat; [now apply discount_pos|].
  rewrite !(Qmult_comm Ef). apply Qmult_lt_compat_r; [exact HEf|].
  apply Qpower_lt_base; [lra|lra|lia].
Qed.

(** A faster degradation raises the result: for [Ef > 0], [d > -100] and
    [deg1 < deg2 < 1], if the call at [deg1] returns a positive number then
    the call at [deg2] returns a strictly greater one. *)
Theorem calculate_lcoe_degradation_increasing (Ef : Q) (econ : Econ) (T : Z)
  (deg1 deg2 : Q) (Nd : Z) :
  0 < Ef -> - (100) < d econ -> deg1 < deg2 -> deg2 < 1 ->
  returns (calculate_lcoe Ef econ T deg1 Nd) (fun v => 0 < v) ->
  result_lt (calculate_lcoe Ef econ T deg1 Nd)
            (calculate_lcoe Ef econ T deg2 Nd).
Proof.
  intros HEf Hd H12 H2 Hv.
  pose proof (base_pos econ Hd) as Hbase.
  destruct (calculate_lcoe Ef econ T deg1 Nd) as [v1|e] eqn:E1;
    simpl in Hv; [|tauto].
  assert (HT : (1 <= T)%Z).
  { destruct (Z_le_gt_dec T 0) as [HT|HT]; [|lia].
    destruct (Z.eq_dec Nd 0) as [->|HNd].
    - rewrite calculate_lcoe_Nd_zero in E1. discriminate.
    - rewrite calculate_lcoe_no_year in E1 by assumption. discriminate. }
  destruct (calculate_lcoe_Ok_inv _ _ _ _ _ _ E1) as (HNd & Hb & _ & Hv1).
  assert (Hden1 : 0 < lcoe_denominator Ef econ T deg1)
    by (apply lcoe_denominator_pos; (assumption || lra)).
  assert (Hden2 : 0 < lcoe_denominator Ef econ T deg2)
    by (apply lcoe_denominator_pos; (assumption || lra)).
  pose proof (lcoe_denominator_degrading Ef econ T deg1 deg2
                HEf H12 H2 Hbase HT) as Hlt.
  set (den1 := lcoe_denominator Ef econ T deg1) in *.
  set (den2 := lcoe_denominator Ef econ T deg2) in *.
  set (num := lcoe_numerator econ T Nd) in *.
  assert (Hnum : 0 < num).
  { assert (Hn : num == v1 * den1) by (rewrite Hv1; field; lra).
    rewrite Hn. now apply Qmult_lt_0_compat. }
  pose proof (calculate_lcoe_formula Ef econ T deg2 Nd Hb HNd) as F.
  fold num den2 in F. rewrite truediv_ok in F by lra.
  apply result_eq_Ok in F. destruct F as (v2 & -> & Hv2). simpl.
  rewrite Hv1, Hv2. unfold Qdiv.
  apply Qmult_lt_l; [exact Hnum|].
  now apply -> Qinv_lt_contravar.
Qed.

Lemma calculate_lcoe_degradation_increasing_witness :
  result_lt (calculate_lcoe scenario_Ef scenario_econ 25 (1 # 100) 20)
            (calculate_lcoe scenario_Ef scenario_econ 25 (2 # 100) 20).
Proof.
  apply (calculate_lcoe_degradation_increasing scenario_Ef scenario_econ 25
           (1 # 100) (2 # 100) 20); vm_compute; reflexivity.
Defined.

(** ** The sign of the result *)

Lemma Qsum_from_nonneg (f : Z -> Q) (n : nat) (lo : Z) :
  (forall y, (lo <= y < lo + Z.of_nat n)%Z -> 0 <= f y) ->
  0 <= Qsum_from lo n f.
Proof.
  intros H.
  rewrite <- (Qsum_from_zero (fun _ => 0) n lo) by reflexivity.
  now apply Qsum_from_le.
Qed.

(** In the expected range of the arguments the cost of energy is a positive
    number: [Ef > 0], [deg < 1], [T >= 1], [Nd >= 1], [capex > 0],
    [opex >= 0], [d >= 0], [Tx <= 100], [rom >= -100], and [Tx < 100] or
    [d > 0] or [T < Nd]. *)
Theorem calculate_lcoe_positive (Ef : Q) (econ : Econ) (T : Z) (deg : Q)
  (Nd : Z) :
  0 < Ef -> deg < 1 -> (1 <= T)%Z -> (1 <= Nd)%Z ->
  0 < capex econ -> 0 <= opex econ ->
  0 <= d econ -> Tx econ <= 100 -> - (100) <= rom econ ->
  Tx econ < 100 \/ 0 < d econ \/ (T < Nd)%Z ->
  returns (calculate_lcoe Ef econ T deg Nd) (fun v => 0 < v).
Proof.
  intros HEf Hdeg HT HNd Hc Ho Hd HTx Hrom Hstrict.
  assert (Hbase : 0 < 1 + d econ / 100).
  { unfold Qdiv. change (/ 100) with (1 # 100). lra. }
  assert (Hden : 0 < lcoe_denominator Ef econ T deg)
    by now apply lcoe_denominator_pos.
  assert (Hnum : 0 < lcoe_numerator econ T Nd).
  { rewrite lcoe_numerator_capex.
    assert (0 < capex econ * capex_weight econ T Nd).
    { apply Qmult_lt_0_compat; [exact Hc|]. now apply capex_weight_pos. }
    assert (0 <= Qsum 1 T (opex_term econ)).
    { unfold Qsum. apply Qsum_from_nonneg. intros y _. unfold opex_term.
      apply Qle_shift_div_l; [now apply discount_pos|].
      rewrite Qmult_0_l. apply Qmult_le_0_compat.
      - apply Qmult_le_0_compat; [exact Ho|].
        unfold Qdiv. change (/ 100) with (1 # 100). lra.
      - apply Qpower_0_le. unfold Qdiv. change (/ 100) with (1 # 100).
        lra. }
    lra. }
  pose proof (calculate_lcoe_formula Ef econ T deg Nd) as F.
  rewrite truediv_ok in F by lra.
  destruct (result_eq_Ok _ _ (F ltac:(lra) ltac:(lia))) as (v & -> & Hv).
  simpl. rewrite Hv. now apply Qdiv_pos.
Qed.

Lemma calculate_lcoe_positive_witness :
  returns (calculate_lcoe scenario_Ef scenario_econ 25 (1 # 100) 20)
          (fun v => 0 < v).
Proof.
  apply (calculate_lcoe_positive scenario_Ef scenario_econ 25 (1 # 100) 20);
    try lia; try (vm_compute; reflexivity); try (vm_compute; discriminate).
  left. vm_compute. reflexivity.
Defined.

(** ** The discounted yield as a geometric series *)

Lemma geometric_sum (r : Q) (n : nat) : forall lo,
  (1 <= lo)%Z ->
  Qsum_from lo n (fun y => r ^ y) * (1 - r)
  == r ^ lo - r ^ (lo + Z.of_nat n).
Proof.
  induction n as [|k IH]; intros lo Hlo.
  - simpl. replace (lo + 0)%Z with lo by lia. ring.
  - cbn [Qsum_from].
    replace (lo + Z.of_nat (S k))%Z with (lo + 1 + Z.of_nat k)%Z by lia.
    assert (Hstep : r ^ (lo + 1) == r ^ lo * r).
    { rewrite Qpower_plus' by lia. now rewrite Qpower_1_r. }
    specialize (IH (lo + 1)%Z ltac:(lia)).
    setoid_replace ((r ^ lo + Qsum_from (lo + 1) k (fun y => r ^ y)) * (1 - r))
      with (r ^ lo * (1 - r)
            + Qsum_from (lo + 1) k (fun y => r ^ y) * (1 - r)) by ring.
    rewrite IH, Hstep. ring.
Qed.

Lemma yield_term_ratio (Ef : Q) (econ : Econ) (deg : Q) (year : Z) :
  yield_term Ef econ deg year == Ef * yield_ratio econ deg ^ year.
Proof.
  unfold yield_term, yield_ratio, discount. rewrite Qdiv_power.
  unfold Qdiv. ring.
Qed.

Lemma lcoe_denominator_geometric (Ef : Q) (econ : Econ) (T : Z) (deg : Q) :
  (0 <= T)%Z ->
  lcoe_denominator Ef econ T deg * (1 - yield_ratio econ deg)
  == Ef * (yield_ratio econ deg - yield_ratio econ deg ^ (T + 1)).
Proof.
  intros HT. unfold lcoe_denominator, Qsum.
  rewrite (Qsum_from_ext _ (fun y => Ef * yield_ratio econ deg ^ y))
    by (intros y _; apply yield_term_ratio).
  rewrite Qsum_from_scal, <- Qmult_assoc, geometric_sum by lia.
  replace (1 + Z.of_nat (Z.to_nat (T - 1 + 1)))%Z with (T + 1)%Z by lia.
  now rewrite Qpower_1_r.
Qed.

(** The denominator is a geometric series in the ratio
    [r = (1 - deg) / (1 + d/100)]: for [T >= 1], [Nd <> 0], a discount
    factor that is not zero and [r <> 1], the call is the division of the
    numerator by [Ef * (r - r^(T+1)) / (1 - r)]. *)
Theorem calculate_lcoe_annuity (Ef : Q) (econ : Econ) (T : Z) (deg : Q)
  (Nd : Z) :
  (1 <= T)%Z -> Nd <> 0%Z -> ~ 1 + d econ / 100 == 0 ->
  ~ yield_ratio econ deg == 1 ->
  calculate_lcoe Ef econ T deg Nd
  =r= truediv At_return (lcoe_numerator econ T Nd)
        (Ef * (yield_ratio econ deg - yield_ratio econ deg ^ (T + 1))
         / (1 - yield_ratio econ deg)).
Proof.
  intros HT HNd Hd Hr.
  eapply result_eq_trans; [now apply calculate_lcoe_formula|].
  apply truediv_compat; [reflexivity|].
  rewrite <- lcoe_denominator_geometric by lia.
  field. intros H. apply Hr. lra.
Qed.

Lemma calculate_lcoe_annuity_witness :
  calculate_lcoe scenario_Ef scenario_econ 25 (1 # 100) 20
  =r= truediv At_return (lcoe_numerator scenario_econ 25 20)
        (scenario_Ef
         * (yield_ratio scenario_econ (1 # 100)
            - yield_ratio scenario_econ (1 # 100) ^ (25 + 1))
         / (1 - yield_ratio scenario_econ (1 # 100))).
Proof.
  apply (calculate_lcoe_annuity scenario_Ef scenario_econ 25 (1 # 100) 20);
    try lia; intros H; vm_compute in H; discriminate.
Defined.
